(** * aws-vault: access-control validation and the copy command

    A shallow embedding of [validateAccessControls] (cli/global.go) and of
    [CopyCommand] (cli/copy.go), with the properties their design document
    states about them.

    Go strings are byte strings: they are modelled by [string], whose
    characters are the 256 values of [ascii]. *)

From Stdlib Require Import String Ascii List Arith Lia Permutation.
From Stdlib Require Import DecimalString.
From stdpp Require Import base gmap strings list.

Open Scope nat_scope.
Open Scope stdpp_scope.

(** ** Byte strings *)

Module Str.

(** [strings.HasPrefix] followed by slicing the prefix off. *)
Fixpoint stripPrefix (p s : string) : option string :=
  match p with
  | EmptyString => Some s
  | String c p' =>
      match s with
      | EmptyString => None
      | String d s' => if Ascii.eqb c d then stripPrefix p' s' else None
      end
  end.

End Str.

(** ** The parts of Go's [regexp] package that the validator uses

    A compiled pattern is represented by its syntax tree.  Capture groups do
    not change which strings match or where, and neither [MatchString] nor
    [Split] reports submatches, so [(...)] and [(?:...)] are both plain
    grouping. *)

Module Regexp.

Inductive regex : Type :=
| Lit (s : string)            (* a literal run of bytes *)
| Space                       (* \s *)
| Alt (r1 r2 : regex)         (* r1|r2, r1 preferred *)
| Cat (r1 r2 : regex)         (* r1r2 *)
| Star (r : regex)            (* r*, greedy *)
| BeginText                   (* ^ without the m flag *)
| EndText.                    (* $ without the m flag *)

(** The Perl class [\s] of Go's regexp/syntax: [\t\n\f\r ]. *)
Definition isSpace (c : ascii) : bool :=
  match c with
  | "009" | "010" | "012" | "013" | " " => true
  | _ => false
  end%char.

(** [alternation [t1; ...; tn]] is the tree of [t1|...|tn], the pattern that
    [strings.Join(ts, "|")] spells. *)
Fixpoint alternation (ts : list string) : regex :=
  match ts with
  | [] => Lit ""
  | [t] => Lit t
  | t :: ts' => Alt (Lit t) (alternation ts')
  end.

(** The greedy loop of [r*]: [body] runs one iteration, [n] bounds the
    number of iterations by the length of the text, and an iteration that
    consumes nothing is not repeated. *)
Fixpoint starLoop {A : Type}
    (body : nat -> string -> (nat -> string -> option A) -> option A)
    (k : nat -> string -> option A) (n : nat) (i : nat) (s : string)
    {struct n} : option A :=
  match n with
  | O => k i s
  | S n' =>
      match body i s (fun j s' =>
              if String.length s' <? String.length s
              then starLoop body k n' j s' else None) with
      | Some x => Some x
      | None => k i s
      end
  end.

(** Leftmost-first matching, as a backtracking search in priority order.
    [exec r i s k] matches [r] against the text [s] that starts at byte
    offset [i] of the subject, and hands the offset and the text that remain
    to the continuation [k]; the first success in priority order is the
    answer. *)
Fixpoint exec {A : Type} (r : regex) (i : nat) (s : string)
    (k : nat -> string -> option A) {struct r} : option A :=
  match r with
  | Lit l =>
      match Str.stripPrefix l s with
      | Some s' => k (i + String.length l) s'
      | None => None
      end
  | Space =>
      match s with
      | String c s' => if isSpace c then k (S i) s' else None
      | EmptyString => None
      end
  | Alt r1 r2 =>
      match exec r1 i s k with
      | Some x => Some x
      | None => exec r2 i s k
      end
  | Cat r1 r2 => exec r1 i s (fun j s' => exec r2 j s' k)
  | Star r1 => starLoop (exec r1) k (String.length s) i s
  | BeginText => if i =? 0 then k i s else None
  | EndText => match s with EmptyString => k i s | _ => None end
  end.

(** What [exec] searches: [matches r i s j s'] says that [r] matches the
    part of [s] that ends where [s'] begins, from offset [i] to offset
    [j]. *)
Inductive matches : regex -> nat -> string -> nat -> string -> Prop :=
| matches_Lit l i s :
    matches (Lit l) i (l +:+ s) (i + String.length l) s
| matches_Space c i s :
    isSpace c = true -> matches Space i (String c s) (S i) s
| matches_Alt_l r1 r2 i s j s' :
    matches r1 i s j s' -> matches (Alt r1 r2) i s j s'
| matches_Alt_r r1 r2 i s j s' :
    matches r2 i s j s' -> matches (Alt r1 r2) i s j s'
| matches_Cat r1 r2 i s j s' j' s'' :
    matches r1 i s j s' -> matches r2 j s' j' s'' ->
    matches (Cat r1 r2) i s j' s''
| matches_Star_stop r i s :
    matches (Star r) i s i s
| matches_Star_step r i s j s' j' s'' :
    matches r i s j s' -> String.length s' < String.length s ->
    matches (Star r) j s' j' s'' ->
    matches (Star r) i s j' s''
| matches_BeginText s :
    matches BeginText 0 s 0 s
| matches_EndText i :
    matches EndText i "" i "".

(** The leftmost match at or after the current position: the text skipped
    before it, the offset where it ends and the text after it. *)
Fixpoint find (r : regex) (i : nat) (s : string)
    : option (string * nat * string) :=
  match exec r i s (fun j s' => Some (j, s')) with
  | Some (j, s') => Some ("", j, s')
  | None =>
      match s with
      | EmptyString => None
      | String c s' =>
          match find r (S i) s' with
          | Some (skipped, j, rest) => Some (String c skipped, j, rest)
          | None => None
          end
      end
  end.

(** [re.MatchString(s)]: is there a match anywhere in [s]? *)
Definition MatchString (re : regex) (s : string) : bool :=
  match find re 0 s with Some _ => true | None => false end.

(** [re.Split(s, -1)] for a pattern that has no empty match: the pieces of
    [s] between successive leftmost matches, the piece after the last match
    included.  [n] bounds the number of matches, and each one consumes at
    least one byte. *)
Fixpoint splitFrom (n : nat) (re : regex) (i : nat) (s : string)
    : list string :=
  match n with
  | O => [s]
  | S n' =>
      match find re i s with
      | Some (piece, j, rest) => piece :: splitFrom n' re j rest
      | None => [s]
      end
  end.

Definition Split (re : regex) (s : string) : list string :=
  splitFrom (String.length s) re 0 s.

End Regexp.

(** ** [strings.TrimSpace]

    Leading and trailing white space, as [unicode.IsSpace] defines it, is
    removed: the six ASCII space bytes and the UTF-8 encodings of U+0085,
    U+00A0, U+1680, U+2000..U+200A, U+2028, U+2029, U+202F, U+205F and
    U+3000. *)

Module Strings.

Definition asciiSpace (c : ascii) : bool :=
  match c with
  | "009" | "010" | "011" | "012" | "013" | " " => true
  | _ => false
  end%char.

(** The runes of [unicode.IsSpace] that take two or three bytes, by the
    bytes of their encoding. *)
Definition bytes3 (c1 c2 c3 : ascii) : N * N * N :=
  (N_of_ascii c1, N_of_ascii c2, N_of_ascii c3).

Definition isSpace2 (c1 c2 : ascii) : bool :=
  (N_of_ascii c1 =? 194)%N &&
  ((N_of_ascii c2 =? 133)%N            (* U+0085 *)
   || (N_of_ascii c2 =? 160)%N).       (* U+00A0 *)

Definition isSpace3 (c1 c2 c3 : ascii) : bool :=
  match bytes3 c1 c2 c3 with
  | (225, 154, 128)%N => true          (* U+1680 *)
  | (226, 128, n)%N =>                 (* U+2000..U+200A, U+2028, U+2029, U+202F *)
      ((128 <=? n)%N && (n <=? 138)%N)
      || (n =? 168)%N || (n =? 169)%N || (n =? 175)%N
  | (226, 129, 159)%N => true          (* U+205F *)
  | (227, 128, 128)%N => true          (* U+3000 *)
  | _ => false
  end.

Fixpoint trimLeft (s : string) : string :=
  match s with
  | String c1 s1 =>
      if asciiSpace c1 then trimLeft s1 else
      match s1 with
      | String c2 s2 =>
          if isSpace2 c1 c2 then trimLeft s2 else
          match s2 with
          | String c3 s3 => if isSpace3 c1 c2 c3 then trimLeft s3 else s
          | EmptyString => s
          end
      | EmptyString => s
      end
  | EmptyString => s
  end.

(** The same scan from the end, on the reversed string. *)
Fixpoint trimLeftRev (s : string) : string :=
  match s with
  | String c1 s1 =>
      if asciiSpace c1 then trimLeftRev s1 else
      match s1 with
      | String c2 s2 =>
          if isSpace2 c2 c1 then trimLeftRev s2 else
          match s2 with
          | String c3 s3 => if isSpace3 c3 c2 c1 then trimLeftRev s3 else s
          | EmptyString => s
          end
      | EmptyString => s
      end
  | EmptyString => s
  end.

Definition trimRight (s : string) : string :=
  String.rev (trimLeftRev (String.rev s)).

Definition TrimSpace (s : string) : string := trimRight (trimLeft s).

End Strings.

(** ** cli/global.go *)

Import Regexp.

Record AwsVault : Type := {
  Debug : bool;
  KeyringBackend : string;
  promptDriver : string;
  accessControl : string
}.

Definition accessControlOptions : list string :=
  ["UserPresence"; "BiometryCurrentSet"; "BiometryAnySet"; "DevicePasscode";
   "Watch"; "ApplicationPassword"].

(** The two errors of [validateAccessControls], with what each carries. *)
Inductive error : Type :=
| InvalidSyntax (raw : string)
| DuplicateTerm (term : string).

(** The text that [fmt.Errorf] gives each of them. *)
Definition Error (e : error) : string :=
  match e with
  | InvalidSyntax raw => "invalid access control setting: '" +:+ raw +:+ "'"
  | DuplicateTerm term => "repeated access control term: '" +:+ term +:+ "'"
  end.

(** A Go result pair [(v, err)]. *)
Inductive result (E A : Type) : Type :=
| Ok (v : A)
| Err (e : E).
Arguments Ok {E A} v.
Arguments Err {E A} e.

(** [(And|Or)] *)
Definition conjunction : regex := Alt (Lit "And") (Lit "Or").

(** The part of the pattern that is repeated, [\s*(And|Or)\s*(%s)], with the
    pattern of the terms in the place of [%s]. *)
Definition another (validTermsPattern : regex) : regex :=
  Cat (Star Space) (Cat conjunction (Cat (Star Space) validTermsPattern)).

(** [fmt.Sprintf(`^(%s)(?:\s*(And|Or)\s*(%s))*$`, validTermsPattern,
    validTermsPattern)], compiled. *)
Definition structurePattern (validTermsPattern : regex) : regex :=
  Cat BeginText
    (Cat validTermsPattern
       (Cat (Star (another validTermsPattern)) EndText)).

(** [\s*(And|Or)\s*] *)
Definition splitRegex : regex :=
  Cat (Star Space) (Cat conjunction (Star Space)).

(** The loop over [terms] with the [seen] map; the result is the term of the
    early return, if the loop takes it. *)
Fixpoint firstSeen (terms : list string) (seen : gmap string bool)
    : option string :=
  match terms with
  | [] => None
  | term :: rest =>
      let normalizedTerm := Strings.TrimSpace term in
      if default false (seen !! normalizedTerm)
      then Some normalizedTerm
      else firstSeen rest (<[normalizedTerm := true]> seen)
  end.

Definition validateAccessControls (a : AwsVault) : result error (list string) :=
  let validTerms := accessControlOptions in
  let validTermsPattern := alternation validTerms in
  let regex := structurePattern validTermsPattern in
  if negb (MatchString regex (accessControl a))
  then Err (InvalidSyntax (accessControl a))
  else
    let terms := Split splitRegex (accessControl a) in
    match firstSeen terms ∅ with
    | Some normalizedTerm => Err (DuplicateTerm normalizedTerm)
    | None => Ok terms
    end.

(** The configuration that carries a given [--access-control] value. *)
Definition withAccessControl (raw : string) : AwsVault :=
  {| Debug := false; KeyringBackend := "dp-keychain"; promptDriver := "";
     accessControl := raw |}.

(** ** cli/global.go, the methods and hooks around the validator *)

Module Globals.

(** The fields of [keyring.Config] that cli/global.go names, the
    function-valued [FilePasswordFunc] apart. *)
Record Config : Type := {
  ServiceName : string;
  AllowedBackends : list string;
  KeychainName : string;
  KeychainTrustApplication : bool;
  KeychainAccessConstraint : string;
  KeychainAccessControl : list string;
  FileDir : string;
  KWalletAppID : string;
  KWalletFolder : string;
  LibSecretCollectionName : string;
  PassDir : string;
  PassCmd : string;
  PassPrefix : string;
  WinCredPrefix : string
}.

(** [c.AllowedBackends = backends] *)
Definition withAllowedBackends (backends : list string) (c : Config) : Config :=
  {| ServiceName := ServiceName c;
     AllowedBackends := backends;
     KeychainName := KeychainName c;
     KeychainTrustApplication := KeychainTrustApplication c;
     KeychainAccessConstraint := KeychainAccessConstraint c;
     KeychainAccessControl := KeychainAccessControl c;
     FileDir := FileDir c;
     KWalletAppID := KWalletAppID c;
     KWalletFolder := KWalletFolder c;
     LibSecretCollectionName := LibSecretCollectionName c;
     PassDir := PassDir c;
     PassCmd := PassCmd c;
     PassPrefix := PassPrefix c;
     WinCredPrefix := WinCredPrefix c |}.

(** [c.KeychainAccessControl = terms] *)
Definition withKeychainAccessControl (terms : list string) (c : Config) : Config :=
  {| ServiceName := ServiceName c;
     AllowedBackends := AllowedBackends c;
     KeychainName := KeychainName c;
     KeychainTrustApplication := KeychainTrustApplication c;
     KeychainAccessConstraint := KeychainAccessConstraint c;
     KeychainAccessControl := terms;
     FileDir := FileDir c;
     KWalletAppID := KWalletAppID c;
     KWalletFolder := KWalletFolder c;
     LibSecretCollectionName := LibSecretCollectionName c;
     PassDir := PassDir c;
     PassCmd := PassCmd c;
     PassPrefix := PassPrefix c;
     WinCredPrefix := WinCredPrefix c |}.

(** The struct [AwsVault] in full: the fields of the record [AwsVault]
    above, the keyring configuration and the keyring that [Keyring] holds
    once it has opened one ([nil] is [None]).  [K] is the type of an open
    keyring. *)
Record Vault (K : Type) : Type := {
  settings : AwsVault;
  KeyringConfig : Config;
  keyringImpl : option K
}.
Arguments settings {K} v.
Arguments KeyringConfig {K} v.
Arguments keyringImpl {K} v.

(** [a.promptDriver = driver] *)
Definition withPromptDriver (driver : string) (a : AwsVault) : AwsVault :=
  {| Debug := Debug a; KeyringBackend := KeyringBackend a;
     promptDriver := driver; accessControl := accessControl a |}.

(** What the process can tell about standard output:
    [isatty.IsTerminal(fd)] and [isatty.IsCygwinTerminal(fd)]. *)
Record stdoutKind : Type := {
  IsTerminal : bool;
  IsCygwinTerminal : bool
}.

Definition isATerminal (fd : stdoutKind) : bool :=
  IsTerminal fd || IsCygwinTerminal fd.

(** The loop of [PromptDriver] over [prompt.Available()]: each driver is
    assigned in turn, and the loop stops at the first that is not
    "terminal".  [current] is the value of [a.promptDriver]. *)
Fixpoint rangeDrivers (available : list string) (current : string) : string :=
  match available with
  | [] => current
  | driver :: rest =>
      if negb (String.eqb driver "terminal") then driver
      else rangeDrivers rest driver
  end.

(** [a.PromptDriver(avoidTerminalPrompt)], given the kind of standard output
    and the drivers of [prompt.Available()]: the driver returned, the vault
    as the call leaves it and the line that it logs. *)
Definition PromptDriver (fd : stdoutKind) (available : list string)
    (avoidTerminalPrompt : bool) (a : AwsVault) : string * AwsVault * string :=
  let a' :=
    if String.eqb (promptDriver a) "" then
      let a1 := withPromptDriver "terminal" a in
      if negb (isATerminal fd) || avoidTerminalPrompt
      then withPromptDriver (rangeDrivers available (promptDriver a1)) a1
      else a1
    else a in
  (promptDriver a', a', "Using prompt driver: " +:+ promptDriver a').

(** [a.Keyring()], given [keyring.Open]: what the call returns, the vault
    as the call leaves it and the configurations with which it called
    [keyring.Open]. *)
Definition Keyring {K err : Type} (Open : Config -> option K * option err)
    (a : Vault K) : (option K * option err) * Vault K * list Config :=
  match keyringImpl a with
  | None =>
      let config :=
        if negb (String.eqb (KeyringBackend (settings a)) "")
        then withAllowedBackends [KeyringBackend (settings a)] (KeyringConfig a)
        else KeyringConfig a in
      let (impl, err) := Open config in
      let a' := {| settings := settings a; KeyringConfig := config;
                   keyringImpl := impl |} in
      match err with
      | Some e => ((None, Some e), a', [config])
      | None => ((impl, None), a', [config])
      end
  | Some impl => ((Some impl, None), a, [])
  end.

(** [strings.Join] *)
Fixpoint Join (elems : list string) (sep : string) : string :=
  match elems with
  | [] => ""
  | [e] => e
  | e :: rest => e +:+ sep +:+ Join rest sep
  end.

(** How a validation hook of [ConfigureGlobals] ends: it returns nil, it
    returns an error, or [kingpin.Fatalf] ends the process. *)
Inductive verdict (E : Type) : Type :=
| Valid
| Invalid (e : E)
| Fatal (message : string).
Arguments Valid {E}.
Arguments Invalid {E} e.
Arguments Fatal {E} message.

Definition passRemoved : string :=
  "--prompt=pass (or AWS_VAULT_PROMPT=pass) has been removed from aws-vault as using TOTPs without " +:+
  "a dedicated device goes against security best practices. If you wish to continue using pass, " +:+
  "add `mfa_process = pass otp <your mfa_serial>` to profiles in your ~/.aws/config file.".

(** [for _, v := range promptsAvailable { if v == driver { return nil } }]:
    does the loop return? *)
Fixpoint rangePrompts (promptsAvailable : list string) (driver : string) : bool :=
  match promptsAvailable with
  | [] => false
  | v :: rest => if String.eqb v driver then true else rangePrompts rest driver
  end.

(** The first hook: the value of [--prompt]. *)
Definition validatePrompt (promptsAvailable : list string) (a : AwsVault)
    : verdict string :=
  if String.eqb (promptDriver a) "" then Valid
  else if String.eqb (promptDriver a) "pass" then Fatal passRemoved
  else if rangePrompts promptsAvailable (promptDriver a) then Valid
  else Invalid ("--prompt value must be one of "
                +:+ Join promptsAvailable "," +:+ ", got '"
                +:+ promptDriver a +:+ "'").

(** The errors of the second hook: the backend does not support the setting,
    or the validator rejects it. *)
Inductive settingError : Type :=
| NotSupported (backend : string)
| Rejected (e : error).

Definition settingErrorString (e : settingError) : string :=
  match e with
  | NotSupported backend =>
      "--access-control is not supported with the backend '" +:+ backend
      +:+ "', only 'dp-keychain' is supported"
  | Rejected e => Error e
  end.

(** The second hook: the access-control settings.  It returns the vault
    with the terms stored, or the error, and the lines that it logs. *)
Definition validateAccessSettings {K : Type} (a : Vault K)
    : result settingError (Vault K) * list string :=
  let backend := KeyringBackend (settings a) in
  let constraint := KeychainAccessConstraint (KeyringConfig a) in
  if negb (String.eqb backend "dp-keychain") && negb (String.eqb constraint "")
  then (Err (NotSupported backend), [])
  else if negb (String.eqb backend "dp-keychain")
          && negb (String.eqb (accessControl (settings a)) "UserPresence")
  then (Err (NotSupported backend), [])
  else
    let logs :=
      ["Using keyring backend: " +:+ backend;
       "Using access control: " +:+ accessControl (settings a)] ++
      (if negb (String.eqb constraint "")
       then ["Using access constraint: " +:+ constraint] else []) in
    match validateAccessControls (settings a) with
    | Err e => (Err (Rejected e), logs)
    | Ok terms =>
        (Ok {| settings := settings a;
               KeyringConfig := withKeychainAccessControl terms (KeyringConfig a);
               keyringImpl := keyringImpl a |}, logs)
    end.

(** [StringInSlice] *)
Fixpoint StringInSlice (str : string) (list : list string) : bool :=
  match list with
  | [] => false
  | v :: rest => if String.eqb v str then true else StringInSlice str rest
  end.

End Globals.

(** ** Terms in which the properties of cli/global.go are stated *)

Module GlobalsTerms.

Import Globals.

(** The drivers that are not the terminal's. *)
Definition notTerminal (driver : string) : bool :=
  negb (String.eqb driver "terminal").

(** Standard output that is no terminal, and one that is. *)
Definition noTerminal : stdoutKind :=
  {| IsTerminal := false; IsCygwinTerminal := false |}.

Definition aTerminal : stdoutKind :=
  {| IsTerminal := true; IsCygwinTerminal := false |}.

(** The configuration with which [Keyring] opens: the allowed backends are
    the selected backend alone, if one is selected, and all else is as the
    vault has it. *)
Definition opening {K : Type} (a : Vault K) : Config :=
  if negb (String.eqb (KeyringBackend (settings a)) "")
  then withAllowedBackends [KeyringBackend (settings a)] (KeyringConfig a)
  else KeyringConfig a.

(** A vault with the file backend selected and no keyring open. *)
Definition fileVault : Vault string :=
  {| settings :=
       {| Debug := false; KeyringBackend := "file"; promptDriver := "";
          accessControl := "UserPresence" |};
     KeyringConfig :=
       {| ServiceName := "aws-vault"; AllowedBackends := [];
          KeychainName := "aws-vault"; KeychainTrustApplication := true;
          KeychainAccessConstraint := ""; KeychainAccessControl := [];
          FileDir := "~/.awsvault/keys/"; KWalletAppID := "aws-vault";
          KWalletFolder := "aws-vault"; LibSecretCollectionName := "awsvault";
          PassDir := ""; PassCmd := ""; PassPrefix := "";
          WinCredPrefix := "aws-vault" |};
     keyringImpl := None |}.

(** [keyring.Open] where only the file backend can be opened. *)
Definition openFile (c : Config) : option string * option string :=
  if bool_decide (AllowedBackends c = ["file"])
  then (Some "file keyring", None)
  else (None, Some "no available implementation").

(** [keyring.Open] where no backend can be opened. *)
Definition openNothing (c : Config) : option string * option string :=
  (None, Some "no available implementation").

End GlobalsTerms.

(** ** cli/copy.go *)

Module Copy.

Record CopyCommandInput : Type := {
  SourceBackend : string;
  DestinationBackend : string
}.

(** The three kinds of secret a keyring holds; [vault.CredentialKeyring],
    [vault.OIDCTokenKeyring] and [vault.SessionKeyring] are the views of one
    keyring that each show one kind. *)
Inductive namespace : Type := Credential | OIDCToken | Session.

Global Instance namespace_eq_dec : EqDecision namespace.
Proof. solve_decision. Defined.

(** Modelled from the spec: the secret-store capability.  The keyring views
    of package vault are not among the sources; the design document gives
    them, per namespace, [Keys() ([]string, error)],
    [Get(key) (payload, error)] and [Set(key, payload) error].  [Keys] and
    [Get] are queries; [Set] yields the store that results and its error,
    if any. *)
Class SecretStore (payload err K : Type) : Type := {
  Keys : namespace -> K -> result err (list string);
  Get : namespace -> string -> K -> result err payload;
  Set_ : namespace -> string -> payload -> K -> K * option err;
  (** [err.Error()] *)
  errorString : err -> string
}.

(** The two keyrings that [CopyCommand] is given. *)
Inductive handle : Type := Source | Destination.

Global Instance handle_eq_dec : EqDecision handle.
Proof. solve_decision. Defined.

(** One call of a keyring method. *)
Inductive op (payload : Type) : Type :=
| OpKeys (ns : namespace)
| OpGet (ns : namespace) (key : string)
| OpSet (ns : namespace) (key : string) (v : payload).
Arguments OpKeys {payload} ns.
Arguments OpGet {payload} ns key.
Arguments OpSet {payload} ns key v.

(** What a run of the command can see and change: the two stores, the
    method calls made so far (oldest first), standard output and the log.
    The two keyrings are two stores: a write to one is not seen through the
    other. *)
Record world (payload K : Type) : Type := {
  src : K;
  dst : K;
  calls : list (handle * op payload);
  stdout : list string;
  logged : list string
}.
Arguments src {payload K} w.
Arguments dst {payload K} w.
Arguments calls {payload K} w.
Arguments stdout {payload K} w.
Arguments logged {payload K} w.

(** A view of a keyring: [&vault.CredentialKeyring{Keyring: k}] and its
    two siblings. *)
Record keyringView : Type := { keyring : handle; kind : namespace }.

Definition CredentialKeyring (k : handle) : keyringView :=
  {| keyring := k; kind := Credential |}.
Definition OIDCTokenKeyring (k : handle) : keyringView :=
  {| keyring := k; kind := OIDCToken |}.
Definition SessionKeyring (k : handle) : keyringView :=
  {| keyring := k; kind := Session |}.

(** [%d] *)
Definition decimal (n : nat) : string :=
  NilEmpty.string_of_uint (Nat.to_uint n).

Definition newline : string := String "010" "".

(** The line that reports the three counts. *)
Definition copiedMessage (credentials oidcTokens sessions : nat) : string :=
  "Copied " +:+ decimal credentials +:+ " credentials, " +:+
  decimal oidcTokens +:+ " OIDC tokens, and " +:+
  decimal sessions +:+ " sessions." +:+ newline.

Section Command.

Context {payload err K : Type} `{SecretStore payload err K}.

(** State and early return: a step maps the world to a value or the
    error that ends the command, and to the world it leaves. *)
Definition M (A : Type) : Type :=
  world payload K -> result err A * world payload K.

Definition ret {A : Type} (a : A) : M A := fun w => (Ok a, w).

Definition bind {A B : Type} (m : M A) (f : A -> M B) : M B :=
  fun w =>
    match m w with
    | (Ok a, w') => f a w'
    | (Err e, w') => (Err e, w')
    end.

Notation "x <- m ;; k" := (bind m (fun x => k))
  (at level 100, m at next level, right associativity).
Notation "m ;;; k" := (bind m (fun _ => k))
  (at level 100, right associativity).

Definition store (h : handle) (w : world payload K) : K :=
  match h with Source => src w | Destination => dst w end.

Definition setStore (h : handle) (k : K) (w : world payload K)
    : world payload K :=
  match h with
  | Source =>
      {| src := k; dst := dst w; calls := calls w;
         stdout := stdout w; logged := logged w |}
  | Destination =>
      {| src := src w; dst := k; calls := calls w;
         stdout := stdout w; logged := logged w |}
  end.

Definition called (h : handle) (o : op payload) (w : world payload K)
    : world payload K :=
  {| src := src w; dst := dst w; calls := calls w ++ [(h, o)];
     stdout := stdout w; logged := logged w |}.

(** The methods of a view. *)
Definition keys (v : keyringView) : M (list string) :=
  fun w =>
    (Keys (kind v) (store (keyring v) w),
     called (keyring v) (OpKeys (kind v)) w).

Definition get (v : keyringView) (name : string) : M payload :=
  fun w =>
    (Get (kind v) name (store (keyring v) w),
     called (keyring v) (OpGet (kind v) name) w).

Definition set (v : keyringView) (name : string) (p : payload) : M unit :=
  fun w =>
    let (k', e) := Set_ (kind v) name p (store (keyring v) w) in
    (match e with None => Ok tt | Some e => Err e end,
     setStore (keyring v) k' (called (keyring v) (OpSet (kind v) name p) w)).

(** [log.Printf] and [fmt.Printf], given the formatted line. *)
Definition logPrintf (line : string) : M unit :=
  fun w =>
    (Ok tt,
     {| src := src w; dst := dst w; calls := calls w;
        stdout := stdout w; logged := logged w ++ [line] |}).

Definition fmtPrintf (line : string) : M unit :=
  fun w =>
    (Ok tt,
     {| src := src w; dst := dst w; calls := calls w;
        stdout := stdout w ++ [line]; logged := logged w |}).

(** [if err != nil { handler; return err }] around a step. *)
Definition onError {A : Type} (m : M A) (handler : err -> M unit) : M A :=
  fun w =>
    match m w with
    | (Ok a, w') => (Ok a, w')
    | (Err e, w') => (Err e, snd (handler e w'))
    end.

(** [for _, name := range names { body }] *)
Fixpoint forRange (names : list string) (body : string -> M unit) : M unit :=
  match names with
  | [] => ret tt
  | name :: rest => body name ;;; forRange rest body
  end.

Definition CopyCommand (input : CopyCommandInput)
    (srcKeyring destKeyring : handle) : M unit :=
  let srcCredentialKeyring := CredentialKeyring srcKeyring in
  let srcOidcTokenKeyring := OIDCTokenKeyring (keyring srcCredentialKeyring) in
  let srcSessionKeyring := SessionKeyring (keyring srcCredentialKeyring) in
  let destCredentialKeyring := CredentialKeyring destKeyring in
  let destOidcTokenKeyring := OIDCTokenKeyring (keyring destCredentialKeyring) in
  let destSessionKeyring := SessionKeyring (keyring destCredentialKeyring) in
  srcCredentialNames <- keys srcCredentialKeyring ;;
  srcOidcTokenNames <- keys srcOidcTokenKeyring ;;
  srcSessionNames <- keys srcSessionKeyring ;;
  logPrintf ("Found " +:+ decimal (length srcCredentialNames)
             +:+ " credentials to copy") ;;;
  logPrintf ("Found " +:+ decimal (length srcOidcTokenNames)
             +:+ " OIDC tokens to copy") ;;;
  logPrintf ("Found " +:+ decimal (length srcSessionNames)
             +:+ " sessions to copy") ;;;
  forRange srcCredentialNames (fun credentialName =>
    creds <- get srcCredentialKeyring credentialName ;;
    logPrintf ("Copying " +:+ credentialName) ;;;
    set destCredentialKeyring credentialName creds) ;;;
  forRange srcOidcTokenNames (fun oidcTokenName =>
    oidcToken <- get srcOidcTokenKeyring oidcTokenName ;;
    logPrintf ("Copying " +:+ oidcTokenName) ;;;
    onError (set destOidcTokenKeyring oidcTokenName oidcToken) (fun e =>
      logPrintf ("Error copying " +:+ oidcTokenName +:+ ": "
                 +:+ errorString e))) ;;;
  forRange srcSessionNames (fun sessionName =>
    session <- get srcSessionKeyring sessionName ;;
    logPrintf ("Copying " +:+ sessionName) ;;;
    set destSessionKeyring sessionName session) ;;;
  fmtPrintf (copiedMessage (length srcCredentialNames)
               (length srcOidcTokenNames) (length srcSessionNames)) ;;;
  ret tt.

(** The world in which a command starts. *)
Definition initial (source destination : K) : world payload K :=
  {| src := source; dst := destination; calls := [];
     stdout := []; logged := [] |}.

(** [CopyCommand(input, srcKeyring, destKeyring)] on two stores. *)
Definition run (input : CopyCommandInput) (source destination : K)
    : result err unit * world payload K :=
  CopyCommand input Source Destination (initial source destination).

End Command.

End Copy.

(** ** A secret store in memory *)

Module MemStore.

Import Copy.

Inductive storeError : Type :=
| ErrKeyNotFound
| Failure (msg : string).

(** Modelled from the spec: a secret store.  No backend is among the
    sources; the design document describes each namespace of a store as a
    mapping from string keys to opaque payloads, enumerated in an order that
    is the backend's own, and lets every operation fail.  [items] lists the
    entries of a namespace in enumeration order; the three [..Fault] fields
    say which operations fail, and with what. *)
Record t : Type := {
  items : namespace -> list (string * string);
  keysFault : namespace -> option storeError;
  getFault : namespace -> string -> option storeError;
  setFault : namespace -> string -> option storeError
}.

Fixpoint lookup (key : string) (l : list (string * string)) : option string :=
  match l with
  | [] => None
  | (k, v) :: l' => if String.eqb k key then Some v else lookup key l'
  end.

(** An existing entry keeps its place, a new one goes last. *)
Fixpoint update (key v : string) (l : list (string * string))
    : list (string * string) :=
  match l with
  | [] => [(key, v)]
  | (k, v') :: l' =>
      if String.eqb k key then (k, v) :: l' else (k, v') :: update key v l'
  end.

Definition storeKeys (ns : namespace) (s : t) : result storeError (list string) :=
  match keysFault s ns with
  | Some e => Err e
  | None => Ok (map fst (items s ns))
  end.

Definition storeGet (ns : namespace) (key : string) (s : t)
    : result storeError string :=
  match getFault s ns key with
  | Some e => Err e
  | None =>
      match lookup key (items s ns) with
      | Some v => Ok v
      | None => Err ErrKeyNotFound
      end
  end.

Definition storeSet (ns : namespace) (key v : string) (s : t)
    : t * option storeError :=
  match setFault s ns key with
  | Some e => (s, Some e)
  | None =>
      ({| items := fun ns' =>
            if decide (ns' = ns) then update key v (items s ns')
            else items s ns';
          keysFault := keysFault s;
          getFault := getFault s;
          setFault := setFault s |}, None)
  end.

Definition storeErrorString (e : storeError) : string :=
  match e with
  | ErrKeyNotFound => "The specified item could not be found in the keyring"
  | Failure msg => msg
  end.

Global Instance secretStore : SecretStore string storeError t := {|
  Keys := storeKeys;
  Get := storeGet;
  Set_ := storeSet;
  errorString := storeErrorString
|}.

(** A store with the given entries in which nothing fails. *)
Definition healthy (content : namespace -> list (string * string)) : t :=
  {| items := content;
     keysFault := fun _ => None;
     getFault := fun _ _ => None;
     setFault := fun _ _ => None |}.

Definition empty : t := healthy (fun _ => []).

(** A store that holds credentials only. *)
Definition credentialsOnly (cs : list (string * string)) : t :=
  healthy (fun ns => match ns with Credential => cs | _ => [] end).

End MemStore.

(** ** The vocabulary of the design document *)

Module Design.

Import Copy.

(** *** Access-control expressions *)

Definition isTerm (t : string) : Prop := t ∈ accessControlOptions.

Inductive conjunctionWord : Type := And | Or.

Definition word (c : conjunctionWord) : string :=
  match c with And => "And" | Or => "Or" end.

(** The string formed by joining terms with conjunctions:
    [joined t [(c1, t1); ...; (cn, tn)]] is [t c1 t1 ... cn tn]. *)
Fixpoint joinedTail (rest : list (conjunctionWord * string)) : string :=
  match rest with
  | [] => ""
  | (c, t) :: rest' => word c +:+ t +:+ joinedTail rest'
  end.

Definition joined (t : string) (rest : list (conjunctionWord * string))
    : string :=
  t +:+ joinedTail rest.

(** The grammar of the design document, [TERM (("And"|"Or") TERM)*]. *)
Definition StrictExpression (raw : string) : Prop :=
  exists t rest,
    isTerm t /\ Forall isTerm (map snd rest) /\ raw = joined t rest.

(** Stripping the conjunctions from a string: the pieces that remain when
    every "And" and every "Or" is cut out, from left to right.  [cur] is
    the piece being read and [skip] counts the bytes of a conjunction that
    are still to be dropped. *)
Fixpoint stripFrom (cur : string) (skip : nat) (s : string) : list string :=
  match s with
  | EmptyString => [cur]
  | String c s' =>
      match skip with
      | S skip' => stripFrom cur skip' s'
      | O =>
          if String.prefix "And" s then cur :: stripFrom "" 2 s'
          else if String.prefix "Or" s then cur :: stripFrom "" 1 s'
          else stripFrom (cur +:+ String c "") 0 s'
      end
  end.

Definition stripConjunctions (s : string) : list string := stripFrom "" 0 s.

(** A run of the white space that [\s] matches. *)
Fixpoint allSpace (w : string) : bool :=
  match w with
  | EmptyString => true
  | String c w' => isSpace c && allSpace w'
  end.

(** A conjunction with the white space around it. *)
Record separator : Type := {
  before : string;
  conj : conjunctionWord;
  after : string
}.

Definition separatorString (sp : separator) : string :=
  before sp +:+ word (conj sp) +:+ after sp.

Definition spaced (sp : separator) : Prop :=
  allSpace (before sp) = true /\ allSpace (after sp) = true.

Fixpoint expressionTail (rest : list (separator * string)) : string :=
  match rest with
  | [] => ""
  | (sp, t) :: rest' => separatorString sp +:+ t +:+ expressionTail rest'
  end.

Definition expression (t : string) (rest : list (separator * string))
    : string :=
  t +:+ expressionTail rest.

(** The conjunctions of a tail stand in white space only, and its terms are
    terms of the vocabulary. *)
Definition wellFormed (rest : list (separator * string)) : Prop :=
  Forall (fun x => spaced (fst x) /\ isTerm (snd x)) rest.

(** The grammar that the pattern of [validateAccessControls] spells:
    [TERM (\s* ("And"|"Or") \s* TERM)*]. *)
Definition Expression (raw : string) : Prop :=
  exists t rest, isTerm t /\ wellFormed rest /\ raw = expression t rest.

(** A conjunction with no white space around it. *)
Definition bare (x : conjunctionWord * string) : separator * string :=
  ({| before := ""; conj := fst x; after := "" |}, snd x).

(** The first term, from left to right, that repeats an earlier one. *)
Definition firstRepeat (terms : list string) (t : string) : Prop :=
  exists pre post,
    terms = pre ++ t :: post /\ NoDup pre /\ t ∈ pre.

(** *** Copy results *)

(** The per-namespace counts of items copied. *)
Record CopyResult : Type := {
  copiedCredentials : nat;
  copiedOIDCTokens : nat;
  copiedSessions : nat
}.

(** The command reports a result when it prints the line that carries its
    three counts. *)
Definition reports {payload K : Type} (w : world payload K) (r : CopyResult)
    : Prop :=
  copiedMessage (copiedCredentials r) (copiedOIDCTokens r) (copiedSessions r)
    ∈ stdout w.

(** The order in which the command goes through the namespaces. *)
Definition rank (ns : namespace) : nat :=
  match ns with Credential => 0 | OIDCToken => 1 | Session => 2 end.

Definition isKeys {payload : Type} (c : handle * op payload) : Prop :=
  match snd c with OpKeys _ => True | _ => False end.

Definition isGet {payload : Type} (c : handle * op payload) : Prop :=
  match snd c with OpGet _ _ => True | _ => False end.

Definition isSet {payload : Type} (c : handle * op payload) : Prop :=
  match snd c with OpSet _ _ _ => True | _ => False end.

End Design.

(** ** Predicates on strings and maps that the proofs use *)

Module Analysis.

Import Regexp.

(** The text does not begin with white space. *)
Definition notSpaceHead (s : string) : bool :=
  match s with
  | String c _ => negb (isSpace c)
  | EmptyString => true
  end.

(** [p] and [s] agree as far as both go, so that [p] may be a prefix of
    [s] followed by more text. *)
Fixpoint clash (p s : string) : bool :=
  match p, s with
  | String a p', String b s' => Ascii.eqb a b && clash p' s'
  | _, _ => true
  end.

(** No separator begins at the head of the text. *)
Definition headFree (s : string) : Prop :=
  notSpaceHead s = true /\
  Str.stripPrefix "And" s = None /\ Str.stripPrefix "Or" s = None.

(** No separator begins inside the term, whatever follows it. *)
Fixpoint sepFree (t : string) : bool :=
  match t with
  | String c t' =>
      negb (isSpace c) && negb (clash "And" t) && negb (clash "Or" t)
      && sepFree t'
  | EmptyString => true
  end.

(** The last two bytes of a string. *)
Fixpoint lastTwo (s : string) : option (ascii * ascii) :=
  match s with
  | String a (String b EmptyString) => Some (a, b)
  | String _ s' => lastTwo s'
  | EmptyString => None
  end.

(** The map [seen] holds exactly the terms of [prev]. *)
Definition holds (seen : gmap string bool) (prev : list string) : Prop :=
  forall x, default false (seen !! x) = true <-> x ∈ prev.

End Analysis.

(** ** The calls of a run of the copy command *)

Module Trace.

Import Copy Design.

Section Generic.

Context {payload err K : Type} `{SecretStore payload err K}.

#[local] Abbreviation world := (Copy.world payload K).
#[local] Abbreviation M := (@Copy.M payload err K).

(** The three enumerations, in the order in which the command makes
    them. *)
Definition enumeration : list (handle * op payload) :=
  [(Source, OpKeys Credential); (Source, OpKeys OIDCToken);
   (Source, OpKeys Session)].

(** A call of the transfer loops: a read of the source or a write to the
    destination. *)
Definition transferCall (c : handle * op payload) : Prop :=
  (fst c = Source /\ isGet c) \/ (fst c = Destination /\ isSet c).

(** What the transfer loops may do to the world: they leave the source
    alone and add transfer calls. *)
Definition transfers (w w' : world) : Prop :=
  src w' = src w /\
  exists new, calls w' = calls w ++ new /\ Forall transferCall new.

Definition transferring {A : Type} (m : M A) : Prop :=
  forall w, transfers w (snd (m w)).

(** The part of the command that follows the three enumerations. *)
Definition transfer (srcCredentialNames srcOidcTokenNames srcSessionNames
    : list string) : M unit :=
  bind (logPrintf ("Found " +:+ decimal (length srcCredentialNames)
                   +:+ " credentials to copy")) (fun _ =>
  bind (logPrintf ("Found " +:+ decimal (length srcOidcTokenNames)
                   +:+ " OIDC tokens to copy")) (fun _ =>
  bind (logPrintf ("Found " +:+ decimal (length srcSessionNames)
                   +:+ " sessions to copy")) (fun _ =>
  bind (forRange srcCredentialNames (fun credentialName =>
    bind (get (CredentialKeyring Source) credentialName) (fun creds =>
    bind (logPrintf ("Copying " +:+ credentialName)) (fun _ =>
    set (CredentialKeyring Destination) credentialName creds)))) (fun _ =>
  bind (forRange srcOidcTokenNames (fun oidcTokenName =>
    bind (get (OIDCTokenKeyring Source) oidcTokenName) (fun oidcToken =>
    bind (logPrintf ("Copying " +:+ oidcTokenName)) (fun _ =>
    onError (set (OIDCTokenKeyring Destination) oidcTokenName oidcToken)
      (fun e => logPrintf ("Error copying " +:+ oidcTokenName +:+ ": "
                           +:+ errorString e)))))) (fun _ =>
  bind (forRange srcSessionNames (fun sessionName =>
    bind (get (SessionKeyring Source) sessionName) (fun session =>
    bind (logPrintf ("Copying " +:+ sessionName)) (fun _ =>
    set (SessionKeyring Destination) sessionName session)))) (fun _ =>
  bind (fmtPrintf (copiedMessage (length srcCredentialNames)
                     (length srcOidcTokenNames) (length srcSessionNames)))
    (fun _ => ret tt))))))).

(** The world after the first [n] enumerations. *)
Definition enumerated (n : nat) (source destination : K) : world :=
  {| src := source; dst := destination; calls := take n enumeration;
     stdout := []; logged := [] |}.

End Generic.

End Trace.

(** ** The stores of the scenarios *)

Module Scenario.

Import Copy MemStore.

Definition anyInput : CopyCommandInput :=
  {| SourceBackend := "file"; DestinationBackend := "keychain" |}.

(** The source of the scenario of C2: three credentials, the second of
    which cannot be read. *)
Definition unreadableSecond : MemStore.t :=
  {| items := fun ns =>
       match ns with
       | Credential => [("a", "x"); ("b", "y"); ("c", "z")]
       | _ => []
       end;
     keysFault := fun _ => None;
     getFault := fun ns key =>
       match ns with
       | Credential =>
           if String.eqb key "b" then Some (Failure "read failed") else None
       | _ => None
       end;
     setFault := fun _ _ => None |}.

(** The source of the scenario of C1: one credential, and an enumeration
    of the OIDC tokens that fails. *)
Definition unlistableTokens : MemStore.t :=
  {| items := fun ns =>
       match ns with Credential => [("a", "x")] | _ => [] end;
     keysFault := fun ns =>
       match ns with
       | OIDCToken => Some (Failure "enumeration failed")
       | _ => None
       end;
     getFault := fun _ _ => None;
     setFault := fun _ _ => None |}.

End Scenario.

(** ** What a run of the copy command transfers *)

Module Plan.

Import Copy Design.

Section Generic.

Context {payload err K : Type} `{SecretStore payload err K}.

(** A transfer: the namespace, the key and the payload of a read from the
    source that was followed by the write to the destination. *)
Definition transferred : Type := namespace * string * payload.

Definition target (t : transferred) : namespace * string := fst t.

(** The two calls of a transfer. *)
Definition transferOf (t : transferred) : list (handle * op payload) :=
  [(Source, OpGet (fst (fst t)) (snd (fst t)));
   (Destination, OpSet (fst (fst t)) (snd (fst t)) (snd t))].

Definition transferCalls (done : list transferred) : list (handle * op payload) :=
  flat_map transferOf done.

(** The payload of the transfer is what the source returns for its key. *)
Definition wasRead (source : K) (t : transferred) : Prop :=
  Get (fst (fst t)) (snd (fst t)) source = Ok (snd t).

(** The destination after the writes of the transfers, in order. *)
Definition written (destination : K) (done : list transferred) : K :=
  fold_left (fun d t => fst (Set_ (fst (fst t)) (snd (fst t)) (snd t) d))
    done destination.

(** The keys to transfer, in the order of the three loops. *)
Definition plan (credentialNames oidcTokenNames sessionNames : list string)
    : list (namespace * string) :=
  map (pair Credential) credentialNames ++
  map (pair OIDCToken) oidcTokenNames ++
  map (pair Session) sessionNames.

(** How the transfers of [todo] end, [done] being those that were made: all
    were made; or the read of the next key failed, and its call is the last
    one; or the write of the last transfer made failed. *)
Inductive ending (source destination : K) (todo : list (namespace * string))
    (done : list transferred)
    : result err unit -> list (handle * op payload) -> Prop :=
| ending_completed :
    map target done = todo ->
    ending source destination todo done (Ok tt) []
| ending_read ns key e rest :
    todo = map target done ++ (ns, key) :: rest ->
    Get ns key source = Err e ->
    ending source destination todo done (Err e) [(Source, OpGet ns key)]
| ending_write before ns key v e rest :
    done = before ++ [(ns, key, v)] ->
    todo = map target done ++ rest ->
    snd (Set_ ns key v (written destination before)) = Some e ->
    ending source destination todo done (Err e) [].

(** A step of the command that transfers the keys of [todo]: it leaves the
    source and standard output alone, and its calls are those of the
    transfers made, followed by the read that failed, if one did. *)
Definition performs (todo : list (namespace * string))
    (m : @M payload err K unit) : Prop :=
  forall w, exists done tail,
    src (snd (m w)) = src w /\
    stdout (snd (m w)) = stdout w /\
    calls (snd (m w)) = calls w ++ transferCalls done ++ tail /\
    dst (snd (m w)) = written (dst w) done /\
    Forall (wasRead (src w)) done /\
    ending (src w) (dst w) todo done (fst (m w)) tail.

(** The call that failed with [e], in the world that the run left. *)
Definition failedWith (source final : K) (e : err) (c : handle * op payload)
    : Prop :=
  match c with
  | (Source, OpKeys ns) => Keys ns source = Err e
  | (Source, OpGet ns key) => Get ns key source = Err e
  | (Destination, OpSet ns key v) =>
      exists d, Set_ ns key v d = (final, Some e)
  | _ => False
  end.

End Generic.

End Plan.

(** ** The loops of the copy command *)

Module Loops.

Import Copy Design Trace Plan.

Section Generic.

Context {payload err K : Type} `{SecretStore payload err K}.

#[local] Abbreviation world := (Copy.world payload K).
#[local] Abbreviation M := (@Copy.M payload err K).

(** One round of a loop: read, log, write; [handler] is what the loop does
    with the error of the write before it returns it. *)
Definition round (ns : namespace) (line : string -> string)
    (handler : string -> err -> M unit) (name : string) : M unit :=
  bind (get {| keyring := Source; kind := ns |} name) (fun v =>
  bind (logPrintf (line name)) (fun _ =>
  onError (set {| keyring := Destination; kind := ns |} name v) (handler name))).

Definition quiet (handler : string -> err -> M unit) : Prop :=
  forall name e (w : world),
    src (snd (handler name e w)) = src w /\
    dst (snd (handler name e w)) = dst w /\
    calls (snd (handler name e w)) = calls w /\
    stdout (snd (handler name e w)) = stdout w.

Definition silent : string -> err -> M unit := fun _ _ => ret tt.

(** The three loops of the command. *)
Definition credentialLoop (names : list string) : M unit :=
  forRange names (fun credentialName =>
    bind (get (CredentialKeyring Source) credentialName) (fun creds =>
    bind (logPrintf ("Copying " +:+ credentialName)) (fun _ =>
    set (CredentialKeyring Destination) credentialName creds))).

Definition oidcTokenLoop (names : list string) : M unit :=
  forRange names (fun oidcTokenName =>
    bind (get (OIDCTokenKeyring Source) oidcTokenName) (fun oidcToken =>
    bind (logPrintf ("Copying " +:+ oidcTokenName)) (fun _ =>
    onError (set (OIDCTokenKeyring Destination) oidcTokenName oidcToken)
      (fun e => logPrintf ("Error copying " +:+ oidcTokenName +:+ ": "
                           +:+ errorString e))))).

Definition sessionLoop (names : list string) : M unit :=
  forRange names (fun sessionName =>
    bind (get (SessionKeyring Source) sessionName) (fun session =>
    bind (logPrintf ("Copying " +:+ sessionName)) (fun _ =>
    set (SessionKeyring Destination) sessionName session))).

(** The command from the first log line to the end of the last loop. *)
Definition loops (l1 l2 l3 : list string) : M unit :=
  bind (logPrintf ("Found " +:+ decimal (length l1) +:+ " credentials to copy"))
    (fun _ =>
  bind (logPrintf ("Found " +:+ decimal (length l2) +:+ " OIDC tokens to copy"))
    (fun _ =>
  bind (logPrintf ("Found " +:+ decimal (length l3) +:+ " sessions to copy"))
    (fun _ =>
  bind (credentialLoop l1) (fun _ =>
  bind (oidcTokenLoop l2) (fun _ => sessionLoop l3))))).

End Generic.

End Loops.

(** ** Stores in memory in which nothing fails *)

Module Faults.

Import Copy MemStore.

(** No operation of the store fails of itself. *)
Definition faultless (s : MemStore.t) : Prop :=
  (forall ns, keysFault s ns = None) /\
  (forall ns key, getFault s ns key = None) /\
  (forall ns key, setFault s ns key = None).

End Faults.

(** * Properties *)

(** ** Appending and stripping *)

Module StrFacts.

Import Str.

Lemma app_nil_l (s : string) : "" +:+ s = s.
Proof. reflexivity. Qed.

Lemma app_cons (c : ascii) (s r : string) :
  String c s +:+ r = String c (s +:+ r).
Proof. reflexivity. Qed.

Lemma app_nil_r (s : string) : s +:+ "" = s.
Proof. induction s as [|c s IH]; [reflexivity|]. rewrite app_cons, IH. reflexivity. Qed.

Lemma app_assoc (a b c : string) : (a +:+ b) +:+ c = a +:+ (b +:+ c).
Proof.
  induction a as [|x a IH]; [reflexivity|].
  rewrite !app_cons, IH. reflexivity.
Qed.

Lemma length_app (a b : string) :
  String.length (a +:+ b) = String.length a + String.length b.
Proof.
  induction a as [|x a IH]; [reflexivity|].
  rewrite app_cons. simpl. rewrite IH. reflexivity.
Qed.

Lemma stripPrefix_app (p s : string) : stripPrefix p (p +:+ s) = Some s.
Proof.
  induction p as [|c p IH]; [reflexivity|].
  rewrite app_cons. simpl. rewrite Ascii.eqb_refl. exact IH.
Qed.

Lemma stripPrefix_Some (p s r : string) :
  stripPrefix p s = Some r -> s = p +:+ r.
Proof.
  revert s. induction p as [|c p IH]; intros s H.
  - simpl in H. injection H as ->. reflexivity.
  - destruct s as [|d s]; [discriminate|]. simpl in H.
    destruct (Ascii.eqb c d) eqn:E; [|discriminate].
    apply Ascii.eqb_eq in E. subst d. rewrite app_cons. f_equal. auto.
Qed.

End StrFacts.

(** ** The matcher finds what the pattern denotes *)

Module RegexpFacts.

Import Regexp.

Lemma matches_shape r i s j s' :
  matches r i s j s' ->
  exists p, s = p +:+ s' /\ j = i + String.length p.
Proof.
  induction 1.
  - exists l. auto.
  - exists (String c ""). split; [reflexivity|simpl; lia].
  - assumption.
  - assumption.
  - destruct IHmatches1 as (p1 & -> & ->).
    destruct IHmatches2 as (p2 & -> & ->).
    exists (p1 +:+ p2). rewrite StrFacts.app_assoc, StrFacts.length_app. split; [reflexivity|lia].
  - exists "". split; [reflexivity|simpl; lia].
  - destruct IHmatches1 as (p1 & -> & ->).
    destruct IHmatches2 as (p2 & -> & ->).
    exists (p1 +:+ p2). rewrite StrFacts.app_assoc, StrFacts.length_app. split; [reflexivity|lia].
  - exists "". split; [reflexivity|reflexivity].
  - exists "". split; [reflexivity|simpl; lia].
Qed.

Lemma matches_length r i s j s' :
  matches r i s j s' -> String.length s' <= String.length s.
Proof.
  intros Hm. destruct (matches_shape _ _ _ _ _ Hm) as (p & -> & _).
  rewrite StrFacts.length_app. lia.
Qed.

Lemma matches_Star_inv r i s j s' :
  matches (Star r) i s j s' ->
  (j = i /\ s' = s) \/
  exists j1 s1, matches r i s j1 s1 /\
    String.length s1 < String.length s /\ matches (Star r) j1 s1 j s'.
Proof. inversion 1; subst; eauto 10. Qed.

Section Exec.

Context {A : Type}.
Implicit Types (k : nat -> string -> option A).

Lemma starLoop_sound r
  (IH : forall i s k x, exec r i s k = Some x ->
        exists j s', matches r i s j s' /\ k j s' = Some x) :
  forall n i s k x,
    starLoop (exec r) k n i s = Some x ->
    exists j s', matches (Star r) i s j s' /\ k j s' = Some x.
Proof.
  induction n as [|n IHn]; intros i s k x Hx; simpl in Hx.
  - exists i, s. split; [constructor|assumption].
  - destruct (exec r i s _) as [y|] eqn:E.
    + injection Hx as ->.
      apply IH in E as (j & s' & Hm & Hk).
      destruct (String.length s' <? String.length s) eqn:Hlt; [|discriminate].
      apply Nat.ltb_lt in Hlt.
      apply IHn in Hk as (j' & s'' & Hm' & Hk').
      exists j', s''. split; [|assumption].
      eapply matches_Star_step; eassumption.
    + exists i, s. split; [constructor|assumption].
Qed.

Lemma exec_sound r : forall i s k x,
  exec r i s k = Some x ->
  exists j s', matches r i s j s' /\ k j s' = Some x.
Proof.
  induction r as [l| |r1 IH1 r2 IH2|r1 IH1 r2 IH2|r IH| |];
    intros i s k x Hx; simpl in Hx.
  - destruct (Str.stripPrefix l s) as [s'|] eqn:E; [|discriminate].
    apply StrFacts.stripPrefix_Some in E. subst s.
    exists (i + String.length l), s'. split; [constructor|assumption].
  - destruct s as [|c s]; [discriminate|].
    destruct (isSpace c) eqn:E; [|discriminate].
    exists (S i), s. split; [constructor; assumption|assumption].
  - destruct (exec r1 i s k) as [y|] eqn:E.
    + injection Hx as ->. apply IH1 in E as (j & s' & Hm & Hk).
      exists j, s'. split; [apply matches_Alt_l|]; assumption.
    + apply IH2 in Hx as (j & s' & Hm & Hk).
      exists j, s'. split; [apply matches_Alt_r|]; assumption.
  - apply IH1 in Hx as (j & s' & Hm & Hk).
    apply IH2 in Hk as (j' & s'' & Hm' & Hk').
    exists j', s''. split; [|assumption].
    eapply matches_Cat; eassumption.
  - eapply starLoop_sound; eassumption.
  - destruct (i =? 0) eqn:E; [|discriminate].
    apply Nat.eqb_eq in E. subst i.
    exists 0, s. split; [constructor|assumption].
  - destruct s; [|discriminate].
    exists i, "". split; [constructor|assumption].
Qed.

Lemma starLoop_complete r
  (IH : forall i s j s' k x, matches r i s j s' -> k j s' = Some x ->
        is_Some (exec r i s k)) :
  forall n i s j s' k x,
    matches (Star r) i s j s' -> k j s' = Some x ->
    String.length s <= n ->
    is_Some (starLoop (exec r) k n i s).
Proof.
  induction n as [|n IHn]; intros i s j s' k x Hm Hk Hn;
    apply matches_Star_inv in Hm
      as [[-> ->]|(j1 & s1 & Hm1 & Hlt & Hm2)]; simpl.
  - eauto.
  - lia.
  - destruct (exec r i s _); eauto.
  - destruct (IHn j1 s1 j s' k x Hm2 Hk ltac:(lia)) as [y Hy].
    destruct (IH i s j1 s1
      (fun j0 s0 => if String.length s0 <? String.length s
                    then starLoop (exec r) k n j0 s0 else None) y Hm1)
      as [z Hz].
    + apply Nat.ltb_lt in Hlt. rewrite Hlt. assumption.
    + rewrite Hz. eauto.
Qed.

Lemma exec_complete r : forall i s j s' k x,
  matches r i s j s' -> k j s' = Some x -> is_Some (exec r i s k).
Proof.
  induction r as [l| |r1 IH1 r2 IH2|r1 IH1 r2 IH2|r IH| |];
    intros i s j s' k x Hm Hk; inversion Hm; subst; simpl.
  - rewrite StrFacts.stripPrefix_app. eauto.
  - match goal with H : isSpace _ = true |- _ => rewrite H end. eauto.
  - edestruct IH1 as [y Hy]; [eassumption..|]. rewrite Hy. eauto.
  - destruct (exec r1 i s k); [eauto|]. eapply IH2; eassumption.
  - match goal with
    | H1 : matches r1 _ _ ?j1 ?s1, H2 : matches r2 ?j1 ?s1 _ _ |- _ =>
        destruct (IH2 _ _ _ _ _ _ H2 Hk) as [y Hy];
        exact (IH1 _ _ _ _ _ _ H1 Hy)
    end.
  - eapply starLoop_complete; [exact IH|constructor|eassumption|lia].
  - eapply starLoop_complete; [exact IH|eassumption|eassumption|lia].
  - eauto.
  - eauto.
Qed.

End Exec.

Lemma matches_Lit_inv l i s j s' :
  matches (Lit l) i s j s' -> s = l +:+ s' /\ j = i + String.length l.
Proof. inversion 1; subst; auto. Qed.

Lemma matches_Alt_inv r1 r2 i s j s' :
  matches (Alt r1 r2) i s j s' -> matches r1 i s j s' \/ matches r2 i s j s'.
Proof. inversion 1; subst; auto. Qed.

Lemma matches_Cat_inv r1 r2 i s j s' :
  matches (Cat r1 r2) i s j s' ->
  exists j1 s1, matches r1 i s j1 s1 /\ matches r2 j1 s1 j s'.
Proof. inversion 1; subst; eauto. Qed.

Lemma matches_BeginText_inv i s j s' :
  matches BeginText i s j s' -> i = 0 /\ j = 0 /\ s' = s.
Proof. inversion 1; subst; auto. Qed.

Lemma matches_EndText_inv i s j s' :
  matches EndText i s j s' -> s = "" /\ s' = "" /\ j = i.
Proof. inversion 1; subst; auto. Qed.

(** A star can always take one more iteration that makes progress, at its
    end. *)
Lemma matches_Star_one r i s j s' :
  matches r i s j s' -> String.length s' < String.length s ->
  matches (Star r) i s j s'.
Proof. intros. eapply matches_Star_step; [eassumption..|constructor]. Qed.

Lemma find_sound r : forall s i p j rest,
  find r i s = Some (p, j, rest) ->
  exists s1, s = p +:+ s1 /\ matches r (i + String.length p) s1 j rest.
Proof.
  induction s as [|c s IH]; intros i p j rest Hf; simpl in Hf.
  - destruct (exec r i "" _) as [[j0 s0]|] eqn:E; [|discriminate].
    injection Hf as <- <- <-.
    apply exec_sound in E as (j1 & s1 & Hm & Hk). injection Hk as -> ->.
    exists "". split; [reflexivity|]. simpl. rewrite Nat.add_0_r. assumption.
  - destruct (exec r i (String c s) _) as [[j0 s0]|] eqn:E.
    + injection Hf as <- <- <-.
      apply exec_sound in E as (j1 & s1 & Hm & Hk). injection Hk as -> ->.
      exists (String c s). split; [reflexivity|].
      simpl. rewrite Nat.add_0_r. assumption.
    + destruct (find r (S i) s) as [[[p0 j0] rest0]|] eqn:E'; [|discriminate].
      injection Hf as <- <- <-.
      apply IH in E' as (s1 & -> & Hm).
      exists s1. split; [reflexivity|].
      simpl. replace (i + S (String.length p0)) with (S i + String.length p0) by lia.
      assumption.
Qed.

Lemma find_complete r : forall p i s1 j rest,
  matches r (i + String.length p) s1 j rest ->
  is_Some (find r i (p +:+ s1)).
Proof.
  induction p as [|c p IH]; intros i s1 j rest Hm.
  - simpl in Hm. rewrite Nat.add_0_r in Hm. rewrite StrFacts.app_nil_l.
    destruct (exec_complete r i s1 j rest (fun j s' => Some (j, s')) _ Hm eq_refl)
      as [[j0 s0] Hy].
    destruct s1; simpl; rewrite Hy; eauto.
  - rewrite StrFacts.app_cons. simpl.
    destruct (exec r i _ _) as [[j0 s0]|]; [eauto|].
    simpl in Hm.
    replace (i + S (String.length p)) with (S i + String.length p) in Hm by lia.
    destruct (IH _ _ _ _ Hm) as [[[p0 j0] rest0] Hy]. rewrite Hy. eauto.
Qed.

Lemma MatchString_iff re s :
  MatchString re s = true <->
  exists p s1 j rest,
    s = p +:+ s1 /\ matches re (String.length p) s1 j rest.
Proof.
  unfold MatchString. split.
  - destruct (find re 0 s) as [[[p j] rest]|] eqn:E; [|discriminate].
    intros _. apply find_sound in E as (s1 & -> & Hm). eauto 10.
  - intros (p & s1 & j & rest & -> & Hm).
    destruct (find_complete re p 0 s1 j rest Hm) as [y ->]. reflexivity.
Qed.

End RegexpFacts.

(** ** What the structure pattern accepts *)

Module PatternFacts.

Import Regexp RegexpFacts Design.

Lemma matches_alternation_inv ts : forall i s j s',
  ts <> [] ->
  matches (alternation ts) i s j s' ->
  exists t, t ∈ ts /\ s = t +:+ s'.
Proof.
  induction ts as [|t ts IH]; intros i s j s' Hne Hm; [congruence|].
  destruct ts as [|t' ts].
  - apply matches_Lit_inv in Hm as [-> _]. exists t. split; [left|reflexivity].
  - change (matches (Alt (Lit t) (alternation (t' :: ts))) i s j s') in Hm.
    apply matches_Alt_inv in Hm as [Hm|Hm].
    + apply matches_Lit_inv in Hm as [-> _]. exists t. split; [left|reflexivity].
    + apply IH in Hm as (u & Hu & ->); [|discriminate].
      exists u. split; [right; assumption|reflexivity].
Qed.

Lemma matches_alternation ts t i s' :
  t ∈ ts ->
  matches (alternation ts) i (t +:+ s') (i + String.length t) s'.
Proof.
  induction ts as [|u ts IH]; intros Hin.
  - inversion Hin.
  - destruct ts as [|u' ts].
    + apply list_elem_of_singleton in Hin as ->. constructor.
    + change (matches (Alt (Lit u) (alternation (u' :: ts))) i (t +:+ s')
                (i + String.length t) s').
      apply elem_of_cons in Hin as [->|Hin].
      * apply matches_Alt_l. constructor.
      * apply matches_Alt_r. auto.
Qed.

Lemma matches_spaces_inv i s j s' :
  matches (Star Space) i s j s' ->
  exists w, allSpace w = true /\ s = w +:+ s'.
Proof.
  intros Hm. remember (Star Space) as r eqn:Hr.
  induction Hm; try discriminate.
  - exists "". split; reflexivity.
  - injection Hr as ->. destruct (IHHm2 eq_refl) as (w & Hw & ->).
    inversion Hm1; subst.
    exists (String c w). split; [|reflexivity].
    simpl. rewrite Hw. rewrite andb_true_r. assumption.
Qed.

Lemma matches_spaces w : forall i s',
  allSpace w = true ->
  matches (Star Space) i (w +:+ s') (i + String.length w) s'.
Proof.
  induction w as [|c w IH]; intros i s' Hw; simpl in Hw.
  - rewrite StrFacts.app_nil_l. simpl. rewrite Nat.add_0_r. constructor.
  - apply andb_true_iff in Hw as [Hc Hw].
    rewrite StrFacts.app_cons. simpl String.length.
    replace (i + S (String.length w)) with (S i + String.length w) by lia.
    eapply matches_Star_step; [constructor; assumption|simpl; lia|auto].
Qed.

Lemma matches_conjunction_inv i s j s' :
  matches conjunction i s j s' -> exists c, s = word c +:+ s'.
Proof.
  intros Hm. apply matches_Alt_inv in Hm as [Hm|Hm];
    apply matches_Lit_inv in Hm as [-> _]; [exists And|exists Or]; reflexivity.
Qed.

Lemma matches_conjunction c i s' :
  matches conjunction i (word c +:+ s') (i + String.length (word c)) s'.
Proof.
  destruct c; [apply matches_Alt_l|apply matches_Alt_r]; constructor.
Qed.

Lemma matches_another_inv ts i s j s' :
  ts <> [] ->
  matches (another (alternation ts)) i s j s' ->
  exists sp t, spaced sp /\ t ∈ ts /\ s = separatorString sp +:+ t +:+ s'.
Proof.
  intros Hne Hm. unfold another in Hm.
  apply matches_Cat_inv in Hm as (j1 & s1 & Hw1 & Hm).
  apply matches_Cat_inv in Hm as (j2 & s2 & Hc & Hm).
  apply matches_Cat_inv in Hm as (j3 & s3 & Hw2 & Ht).
  apply matches_spaces_inv in Hw1 as (w1 & Hw1 & ->).
  apply matches_conjunction_inv in Hc as (c & ->).
  apply matches_spaces_inv in Hw2 as (w2 & Hw2 & ->).
  apply matches_alternation_inv in Ht as (t & Ht & ->); [|assumption].
  exists {| before := w1; conj := c; after := w2 |}, t.
  split; [split; assumption|]. split; [assumption|].
  unfold separatorString. simpl. rewrite !StrFacts.app_assoc. reflexivity.
Qed.

Lemma matches_another ts sp t i s' :
  spaced sp -> t ∈ ts ->
  exists j, matches (another (alternation ts)) i (separatorString sp +:+ t +:+ s') j s'.
Proof.
  intros [Hb Ha] Ht. eexists. unfold another, separatorString.
  rewrite !StrFacts.app_assoc.
  eapply matches_Cat; [apply matches_spaces; assumption|].
  eapply matches_Cat; [apply matches_conjunction|].
  eapply matches_Cat; [apply matches_spaces; assumption|].
  apply matches_alternation; assumption.
Qed.

Lemma word_length c : 0 < String.length (word c).
Proof. destruct c; simpl; lia. Qed.

Lemma matches_tail_inv ts i s j s' :
  ts <> [] ->
  matches (Star (another (alternation ts))) i s j s' ->
  exists rest,
    Forall (fun x => spaced (fst x) /\ snd x ∈ ts) rest /\
    s = expressionTail rest +:+ s'.
Proof.
  intros Hne Hm. remember (Star (another (alternation ts))) as r eqn:Hr.
  induction Hm; try discriminate.
  - exists []. split; [constructor|reflexivity].
  - injection Hr as ->. destruct (IHHm2 eq_refl) as (rest & Hrest & ->).
    apply matches_another_inv in Hm1 as (sp & t & Hsp & Ht & ->); [|assumption].
    exists ((sp, t) :: rest). split; [constructor; [split|]; assumption|].
    simpl. rewrite !StrFacts.app_assoc. reflexivity.
Qed.

Lemma matches_tail ts rest : forall i s',
  Forall (fun x => spaced (fst x) /\ snd x ∈ ts) rest ->
  exists j, matches (Star (another (alternation ts))) i (expressionTail rest +:+ s') j s'.
Proof.
  induction rest as [|[sp t] rest IH]; intros i s' Hrest.
  - exists i. rewrite StrFacts.app_nil_l. constructor.
  - inversion Hrest as [|x l [Hsp Ht] Hrest']; subst. simpl in Hsp, Ht.
    simpl. rewrite !StrFacts.app_assoc.
    destruct (matches_another ts sp t i (expressionTail rest +:+ s') Hsp Ht)
      as [j1 Hm1].
    destruct (IH j1 s' Hrest') as [j Hm].
    exists j. eapply matches_Star_step; [| |exact Hm].
    + exact Hm1.
    + unfold separatorString. rewrite !StrFacts.length_app.
      pose proof (word_length (conj sp)). lia.
Qed.

Lemma structurePattern_unfold ts :
  structurePattern (alternation ts) =
  Cat BeginText (Cat (alternation ts) (Cat (Star (another (alternation ts))) EndText)).
Proof. reflexivity. Qed.

(** The structure check accepts exactly the expressions of the grammar
    [TERM (\s* ("And"|"Or") \s* TERM)*]. *)
Lemma MatchString_structure raw :
  MatchString (structurePattern (alternation accessControlOptions)) raw = true <->
  Expression raw.
Proof.
  assert (Hne : accessControlOptions <> []) by discriminate.
  rewrite MatchString_iff, structurePattern_unfold. split.
  - intros (p & s1 & j & rest & -> & Hm).
    apply matches_Cat_inv in Hm as (j1 & s2 & Hb & Hm).
    apply matches_BeginText_inv in Hb as (Hp & -> & ->).
    destruct p; [|discriminate]. rewrite StrFacts.app_nil_l.
    apply matches_Cat_inv in Hm as (j2 & s3 & Ht & Hm).
    apply matches_Cat_inv in Hm as (j3 & s4 & Hs & He).
    apply matches_EndText_inv in He as (-> & -> & _).
    apply matches_alternation_inv in Ht as (t & Ht & ->); [|assumption].
    apply matches_tail_inv in Hs as (l & Hl & ->); [|assumption].
    rewrite StrFacts.app_nil_r. exists t, l. auto.
  - intros (t & l & Ht & Hl & ->).
    destruct (matches_tail accessControlOptions l (0 + String.length t) "" Hl)
      as [j Hm].
    exists "", (expression t l), j, "". split; [reflexivity|].
    eapply matches_Cat; [constructor|].
    eapply matches_Cat; [apply matches_alternation; exact Ht|].
    eapply matches_Cat; [|constructor].
    rewrite StrFacts.app_nil_r in Hm. exact Hm.
Qed.

End PatternFacts.

(** ** Splitting an accepted expression *)

Module SplitFacts.

Import Regexp RegexpFacts Design Analysis.

#[local] Arguments Ascii.eqb : simpl never.
#[local] Arguments isSpace : simpl never.

Lemma exec_spaces_stop {A : Type} s i (k : nat -> string -> option A) :
  notSpaceHead s = true -> exec (Star Space) i s k = k i s.
Proof.
  destruct s as [|c s]; intros Hs; [reflexivity|].
  simpl in *. destruct (isSpace c); [discriminate|reflexivity].
Qed.

Lemma exec_spaces_greedy {A : Type} w : forall i rest (k : nat -> string -> option A) x,
  allSpace w = true -> notSpaceHead rest = true ->
  k (i + String.length w) rest = Some x ->
  exec (Star Space) i (w +:+ rest) k = Some x.
Proof.
  induction w as [|c w IH]; intros i rest k x Hw Hrest Hk.
  - rewrite StrFacts.app_nil_l, exec_spaces_stop by assumption.
    simpl in Hk. rewrite Nat.add_0_r in Hk. assumption.
  - simpl in Hw. apply andb_true_iff in Hw as [Hc Hw].
    rewrite StrFacts.app_cons.
    change (exec (Star Space) i (String c (w +:+ rest)) k)
      with (match (if isSpace c
                   then (if String.length (w +:+ rest) <? S (String.length (w +:+ rest))
                         then exec (Star Space) (S i) (w +:+ rest) k else None)
                   else None)
            with Some y => Some y | None => k i (String c (w +:+ rest)) end).
    rewrite Hc.
    assert (Hlt : (String.length (w +:+ rest) <? S (String.length (w +:+ rest))) = true)
      by (apply Nat.ltb_lt; lia).
    rewrite Hlt, (IH (S i) rest k x Hw Hrest); [reflexivity|].
    simpl in Hk. replace (S i + String.length w) with (i + S (String.length w)) by lia.
    assumption.
Qed.

Lemma clash_stripPrefix p : forall s u,
  clash p s = false -> Str.stripPrefix p (s +:+ u) = None.
Proof.
  induction p as [|a p IH]; intros s u Hc; [destruct s; discriminate|].
  destruct s as [|b s]; [discriminate|].
  rewrite StrFacts.app_cons. simpl in Hc |- *.
  destruct (Ascii.eqb a b); [apply IH; exact Hc|reflexivity].
Qed.

Lemma exec_splitRegex_None {A : Type} s i (k : nat -> string -> option A) :
  headFree s -> exec splitRegex i s k = None.
Proof.
  intros (Hs & Hand & Hor). unfold splitRegex.
  change (exec (Star Space) i s
            (fun j s' => exec (Cat conjunction (Star Space)) j s' k) = None).
  rewrite exec_spaces_stop by assumption.
  change (match
            match Str.stripPrefix "And" s with
            | Some s' => exec (Star Space) (i + 3) s' k
            | None => None
            end
          with
          | Some x => Some x
          | None =>
              match Str.stripPrefix "Or" s with
              | Some s' => exec (Star Space) (i + 2) s' k
              | None => None
              end
          end = None).
  rewrite Hand, Hor. reflexivity.
Qed.

Lemma sepFree_headFree c t u :
  sepFree (String c t) = true -> headFree (String c (t +:+ u)).
Proof.
  cbn [sepFree]. intros H.
  apply andb_true_iff in H as [H _].
  apply andb_true_iff in H as [H Hor].
  apply andb_true_iff in H as [Hsp Hand].
  apply negb_true_iff in Hand, Hor.
  rewrite <- StrFacts.app_cons.
  split; [|split; apply clash_stripPrefix; assumption].
  rewrite StrFacts.app_cons. exact Hsp.
Qed.

Lemma sepFree_notSpaceHead c t u :
  sepFree (String c t) = true -> notSpaceHead (String c t +:+ u) = true.
Proof.
  intros H. rewrite StrFacts.app_cons.
  exact (proj1 (sepFree_headFree c t u H)).
Qed.

Lemma find_unfold r i s :
  find r i s =
  match exec r i s (fun j s' => Some (j, s')) with
  | Some (j, s') => Some ("", j, s')
  | None =>
      match s with
      | EmptyString => None
      | String c s' =>
          match find r (S i) s' with
          | Some (skipped, j, rest) => Some (String c skipped, j, rest)
          | None => None
          end
      end
  end.
Proof. destruct s; reflexivity. Qed.

(** The search runs past a term without finding a separator in it. *)
Lemma find_past_term t : forall i u,
  sepFree t = true ->
  find splitRegex i (t +:+ u) =
  match find splitRegex (i + String.length t) u with
  | Some (skipped, j, rest) => Some (t +:+ skipped, j, rest)
  | None => None
  end.
Proof.
  induction t as [|c t IH]; intros i u Ht.
  - rewrite StrFacts.app_nil_l. simpl. rewrite Nat.add_0_r.
    destruct (find splitRegex i u) as [[[p j] rest]|]; reflexivity.
  - rewrite find_unfold, StrFacts.app_cons.
    rewrite exec_splitRegex_None by (apply sepFree_headFree; assumption).
    rewrite IH by (simpl in Ht; apply andb_true_iff in Ht as [_ Ht]; exact Ht).
    simpl String.length.
    replace (S i + String.length t) with (i + S (String.length t)) by lia.
    destruct (find splitRegex _ u) as [[[p j] rest]|]; reflexivity.
Qed.

(** At a separator the match takes all the white space on both sides. *)
Lemma exec_separator sp i rest :
  spaced sp -> notSpaceHead rest = true ->
  exec splitRegex i (separatorString sp +:+ rest) (fun j s' => Some (j, s')) =
  Some (i + String.length (before sp) + String.length (word (conj sp))
          + String.length (after sp), rest).
Proof.
  intros [Hb Ha] Hrest. unfold separatorString, splitRegex.
  rewrite !StrFacts.app_assoc.
  change (exec (Cat (Star Space) (Cat conjunction (Star Space))) i ?s ?k)
    with (exec (Star Space) i s
            (fun j s' => exec conjunction j s'
               (fun j' s'' => exec (Star Space) j' s'' k))).
  apply exec_spaces_greedy; [assumption| |].
  - destruct (conj sp); reflexivity.
  - destruct (conj sp); simpl word;
      change (exec conjunction ?j ?s ?k)
        with (match exec (Lit "And") j s k with
              | Some x => Some x
              | None => exec (Lit "Or") j s k
              end).
    + change (exec (Lit "And") ?j ?s ?k)
        with (match Str.stripPrefix "And" s with
              | Some s' => k (j + 3) s'
              | None => None
              end).
      rewrite StrFacts.stripPrefix_app.
      rewrite (exec_spaces_greedy (after sp) _ rest _
                 (i + String.length (before sp) + 3 + String.length (after sp), rest));
        [reflexivity|assumption..|reflexivity].
    + change (exec (Lit "And") ?j (String "O" ?s) ?k) with (@None (nat * string)).
      change (exec (Lit "Or") ?j ?s ?k)
        with (match Str.stripPrefix "Or" s with
              | Some s' => k (j + 2) s'
              | None => None
              end).
      rewrite StrFacts.stripPrefix_app.
      apply exec_spaces_greedy; [assumption..|reflexivity].
Qed.

(** At a separator the match takes all the white space on both sides. *)
Lemma find_separator sp i rest :
  spaced sp -> notSpaceHead rest = true ->
  exists j, find splitRegex i (separatorString sp +:+ rest) = Some ("", j, rest).
Proof.
  intros Hsp Hrest. eexists.
  rewrite find_unfold, exec_separator by assumption. reflexivity.
Qed.

(** Facts that hold of each of the six terms, by evaluation. *)
Lemma terms_sepFree : Forall (fun t => sepFree t = true) accessControlOptions.
Proof. repeat constructor. Qed.

Lemma terms_not_empty : Forall (fun t => t <> "") accessControlOptions.
Proof. repeat constructor; discriminate. Qed.

Lemma terms_trimmed :
  Forall (fun t => Strings.TrimSpace t = t) accessControlOptions.
Proof. repeat constructor. Qed.

Lemma isTerm_sepFree t : isTerm t -> sepFree t = true.
Proof. intros Ht. exact (proj1 (Forall_forall _ _) terms_sepFree t Ht). Qed.

Lemma isTerm_trimmed t : isTerm t -> Strings.TrimSpace t = t.
Proof. intros Ht. exact (proj1 (Forall_forall _ _) terms_trimmed t Ht). Qed.

Lemma isTerm_notSpaceHead t u : isTerm t -> notSpaceHead (t +:+ u) = true.
Proof.
  intros Ht. pose proof (isTerm_sepFree t Ht) as Hf.
  pose proof (proj1 (Forall_forall _ _) terms_not_empty t Ht) as Hne.
  destruct t as [|c t]; [congruence|].
  apply sepFree_notSpaceHead. assumption.
Qed.

Lemma find_end i : find splitRegex i "" = None.
Proof. reflexivity. Qed.

Lemma splitFrom_expression rest : forall t n i,
  isTerm t -> wellFormed rest -> length rest <= n ->
  splitFrom n splitRegex i (expression t rest) = t :: map snd rest.
Proof.
  unfold expression.
  induction rest as [|[sp t'] rest IH]; intros t n i Ht Hrest Hn.
  - simpl expressionTail. rewrite StrFacts.app_nil_r.
    destruct n as [|n]; [reflexivity|]. simpl.
    rewrite <- (StrFacts.app_nil_r t) at 1.
    rewrite find_past_term, find_end by (apply isTerm_sepFree; assumption).
    reflexivity.
  - inversion Hrest as [|x l [Hsp Ht'] Hrest']; subst. simpl in Hsp, Ht'.
    destruct n as [|n]; [simpl in Hn; lia|]. simpl in Hn.
    simpl expressionTail. cbn [splitFrom].
    rewrite find_past_term by (apply isTerm_sepFree; assumption).
    destruct (find_separator sp (i + String.length t)
                (t' +:+ expressionTail rest) Hsp
                (isTerm_notSpaceHead t' _ Ht')) as [j Hj].
    rewrite Hj, StrFacts.app_nil_r.
    rewrite IH by (assumption || lia). reflexivity.
Qed.

Lemma expressionTail_length rest :
  length rest <= String.length (expressionTail rest).
Proof.
  induction rest as [|[sp t] rest IH]; [simpl; lia|].
  simpl. unfold separatorString. rewrite !StrFacts.length_app.
  pose proof (PatternFacts.word_length (conj sp)). lia.
Qed.

Lemma Split_expression t rest :
  isTerm t -> wellFormed rest ->
  Split splitRegex (expression t rest) = t :: map snd rest.
Proof.
  intros Ht Hrest. unfold Split. apply splitFrom_expression; try assumption.
  unfold expression. rewrite StrFacts.length_app.
  pose proof (expressionTail_length rest). lia.
Qed.

End SplitFacts.

(** ** The loop that looks for a repeated term *)

Module SeenFacts.

Import Design Analysis.

Lemma holds_empty : holds ∅ [].
Proof.
  intros x. rewrite lookup_empty. simpl. split; [discriminate|].
  intros H. inversion H.
Qed.

Lemma holds_insert seen prev t :
  holds seen prev -> holds (<[t := true]> seen) (t :: prev).
Proof.
  intros Hs x. destruct (decide (t = x)) as [->|Hne].
  - rewrite lookup_insert_eq. simpl. split; [intros _; left|reflexivity].
  - rewrite lookup_insert_ne by assumption. rewrite (Hs x), elem_of_cons.
    split; [auto|]. intros [->|H]; [congruence|assumption].
Qed.

Lemma firstSeen_None terms : forall seen prev,
  holds seen prev ->
  Forall (fun t => Strings.TrimSpace t = t) terms ->
  NoDup terms -> (forall t, t ∈ terms -> t ∉ prev) ->
  firstSeen terms seen = None.
Proof.
  induction terms as [|t terms IH]; intros seen prev Hs Htrim Hnd Hfresh;
    [reflexivity|].
  inversion Htrim as [|? ? Ht Htrim']; subst.
  apply NoDup_cons in Hnd as [Hnotin Hnd].
  simpl. rewrite Ht.
  destruct (default false (seen !! t)) eqn:E.
  - apply Hs in E. exfalso. apply (Hfresh t); [left|assumption].
  - apply (IH _ (t :: prev)); [apply holds_insert; assumption|assumption..|].
    intros x Hx Hin. apply elem_of_cons in Hin as [->|Hin]; [contradiction|].
    apply (Hfresh x); [right|]; assumption.
Qed.

Lemma firstSeen_Some pre : forall seen prev t post,
  holds seen prev ->
  Forall (fun t => Strings.TrimSpace t = t) (pre ++ t :: post) ->
  NoDup pre -> (forall x, x ∈ pre -> x ∉ prev) ->
  t ∈ pre \/ t ∈ prev ->
  firstSeen (pre ++ t :: post) seen = Some t.
Proof.
  induction pre as [|p pre IH]; intros seen prev t post Hs Htrim Hnd Hfresh Ht.
  - simpl in *. inversion Htrim as [|? ? Htt _]; subst. rewrite Htt.
    destruct Ht as [Ht|Ht]; [inversion Ht|].
    apply Hs in Ht. rewrite Ht. reflexivity.
  - simpl in Htrim. inversion Htrim as [|? ? Hp Htrim']; subst.
    apply NoDup_cons in Hnd as [Hnotin Hnd].
    simpl. rewrite Hp.
    destruct (default false (seen !! p)) eqn:E.
    + apply Hs in E. exfalso. apply (Hfresh p); [left|assumption].
    + apply (IH _ (p :: prev)); [apply holds_insert; assumption|assumption..| |].
      * intros x Hx Hin. apply elem_of_cons in Hin as [->|Hin]; [contradiction|].
        apply (Hfresh x); [right|]; assumption.
      * destruct Ht as [Ht|Ht].
        -- apply elem_of_cons in Ht as [->|Ht]; [right; left|left; assumption].
        -- right; right; assumption.
Qed.

(** A list of terms has no repeat, or it has a first one. *)
Lemma repeat_or_not (terms : list string) :
  NoDup terms \/ exists t, firstRepeat terms t.
Proof.
  induction terms as [|t terms IH] using rev_ind; [left; constructor|].
  destruct IH as [Hnd|(x & pre & post & -> & Hnd & Hin)].
  - destruct (decide (t ∈ terms)) as [Hin|Hnotin].
    + right. exists t, terms, []. auto.
    + left. apply NoDup_app. split; [assumption|]. split.
      * intros y Hy Hy'. apply list_elem_of_singleton in Hy'. subst. contradiction.
      * apply NoDup_singleton.
  - right. exists x, pre, (post ++ [t]).
    rewrite <- app_assoc. auto.
Qed.

Lemma firstRepeat_not_NoDup terms t : firstRepeat terms t -> ~ NoDup terms.
Proof.
  intros (pre & post & -> & _ & Hin) Hnd.
  apply NoDup_app in Hnd as (_ & Hdisj & _).
  apply (Hdisj t Hin). left.
Qed.

End SeenFacts.

(** ** [validateAccessControls] on the expressions of its grammar *)

Module ValidateFacts.

Import Regexp Design Analysis SplitFacts SeenFacts.

Lemma terms_of_expression t rest :
  isTerm t -> wellFormed rest ->
  Forall isTerm (t :: map snd rest).
Proof.
  intros Ht Hrest. constructor; [assumption|].
  induction Hrest as [|[sp t'] rest [_ Ht'] _ IH]; constructor; assumption.
Qed.

Lemma terms_trimmed_all terms :
  Forall isTerm terms -> Forall (fun t => Strings.TrimSpace t = t) terms.
Proof. intros H. eapply Forall_impl; [exact H|]. exact isTerm_trimmed. Qed.

(** Past the structure check, the result is decided by the repeats among
    the terms that were joined. *)
Lemma validate_expression a t rest :
  accessControl a = expression t rest -> isTerm t -> wellFormed rest ->
  validateAccessControls a =
  match firstSeen (t :: map snd rest) ∅ with
  | Some normalizedTerm => Err (DuplicateTerm normalizedTerm)
  | None => Ok (t :: map snd rest)
  end.
Proof.
  intros Ha Ht Hrest. unfold validateAccessControls.
  assert (Hm : MatchString (structurePattern (alternation accessControlOptions))
                 (accessControl a) = true).
  { apply PatternFacts.MatchString_structure. exists t, rest. auto. }
  rewrite Hm, Ha, Split_expression by assumption. reflexivity.
Qed.

Lemma validate_rejected a :
  MatchString (structurePattern (alternation accessControlOptions)) (accessControl a) = false ->
  validateAccessControls a = Err (InvalidSyntax (accessControl a)).
Proof. intros Hm. unfold validateAccessControls. rewrite Hm. reflexivity. Qed.

Lemma validate_not_syntax a s :
  MatchString (structurePattern (alternation accessControlOptions)) (accessControl a) = true ->
  validateAccessControls a <> Err (InvalidSyntax s).
Proof.
  intros Hm. unfold validateAccessControls. rewrite Hm. simpl.
  destruct (firstSeen _ _); discriminate.
Qed.

Lemma joined_expression t rest :
  joined t rest = expression t (map bare rest).
Proof.
  unfold joined, expression. f_equal.
  induction rest as [|[c u] rest IH]; [reflexivity|].
  simpl. unfold separatorString. simpl. rewrite StrFacts.app_nil_l.
  rewrite IH, !StrFacts.app_assoc, StrFacts.app_nil_l. reflexivity.
Qed.

Lemma bare_wellFormed rest :
  Forall isTerm (map snd rest) -> wellFormed (map bare rest).
Proof.
  induction rest as [|[c u] rest IH]; intros H; [constructor|].
  simpl in H. apply Forall_cons in H as [Hu H].
  constructor; [|apply IH; exact H].
  split; [split; reflexivity|exact Hu].
Qed.

Lemma bare_terms rest : map snd (map bare rest) = map snd rest.
Proof. induction rest as [|[c u] rest IH]; [reflexivity|]. simpl. f_equal. exact IH. Qed.

End ValidateFacts.

(** ** Stripping the conjunctions of a joined string *)

Module StripFacts.

Import Regexp Design Analysis SplitFacts.

#[local] Arguments Ascii.eqb : simpl never.

Lemma clash_prefix p : forall s u,
  clash p s = false -> String.prefix p (s +:+ u) = false.
Proof.
  induction p as [|a p IH]; intros s u Hc; [destruct s; discriminate|].
  destruct s as [|b s]; [discriminate|].
  rewrite StrFacts.app_cons. simpl in Hc |- *.
  destruct (Ascii.ascii_dec a b) as [->|Hne].
  - rewrite Ascii.eqb_refl in Hc. apply IH. exact Hc.
  - reflexivity.
Qed.

Lemma stripFrom_past_term t : forall cur u,
  sepFree t = true ->
  stripFrom cur 0 (t +:+ u) = stripFrom (cur +:+ t) 0 u.
Proof.
  induction t as [|c t IH]; intros cur u Ht.
  - rewrite StrFacts.app_nil_l, StrFacts.app_nil_r. reflexivity.
  - pose proof Ht as Ht'. cbn [sepFree] in Ht'.
    apply andb_true_iff in Ht' as [Ht' Hrec].
    apply andb_true_iff in Ht' as [Ht' Hor].
    apply andb_true_iff in Ht' as [_ Hand].
    apply negb_true_iff in Hand, Hor.
    rewrite StrFacts.app_cons. cbn [stripFrom]. rewrite <- StrFacts.app_cons.
    rewrite (clash_prefix "And" _ u Hand), (clash_prefix "Or" _ u Hor).
    rewrite IH by exact Hrec.
    rewrite StrFacts.app_assoc. reflexivity.
Qed.

Lemma stripFrom_word c cur u :
  stripFrom cur 0 (word c +:+ u) = cur :: stripFrom "" 0 u.
Proof. destruct c; destruct u; reflexivity. Qed.

Lemma stripFrom_joined rest : forall t,
  isTerm t -> Forall isTerm (map snd rest) ->
  stripFrom "" 0 (joined t rest) = t :: map snd rest.
Proof.
  unfold joined.
  induction rest as [|[c t'] rest IH]; intros t Ht Hrest.
  - rewrite stripFrom_past_term by (apply isTerm_sepFree; assumption).
    reflexivity.
  - simpl in Hrest. apply Forall_cons in Hrest as [Ht' Hrest].
    rewrite stripFrom_past_term by (apply isTerm_sepFree; assumption).
    simpl joinedTail. rewrite stripFrom_word, StrFacts.app_nil_l.
    rewrite IH by assumption. reflexivity.
Qed.

End StripFacts.

(** ** Where an expression of the grammar begins and ends *)

Module GrammarFacts.

Import Regexp Design Analysis SplitFacts.

Lemma lastTwo_cons c s x : lastTwo s = Some x -> lastTwo (String c s) = Some x.
Proof.
  intros H. destruct s as [|a [|b s]]; try discriminate; exact H.
Qed.

Lemma lastTwo_app p : forall s x,
  lastTwo s = Some x -> lastTwo (p +:+ s) = Some x.
Proof.
  induction p as [|c p IH]; intros s x H; [exact H|].
  rewrite StrFacts.app_cons. apply lastTwo_cons, IH, H.
Qed.

Lemma lastTwo_word u c :
  lastTwo (u +:+ word c) = Some ("n", "d")%char \/
  lastTwo (u +:+ word c) = Some ("O", "r")%char.
Proof.
  destruct c; [left|right]; apply lastTwo_app; reflexivity.
Qed.

Lemma terms_end :
  Forall (fun t => exists x, lastTwo t = Some x /\
                     x <> ("n", "d")%char /\ x <> ("O", "r")%char)
    accessControlOptions.
Proof. repeat constructor; eexists; (split; [reflexivity|split; discriminate]). Qed.

Lemma terms_begin :
  Forall (fun t => clash "And" t = false /\ clash "Or" t = false)
    accessControlOptions.
Proof. repeat constructor. Qed.

(** An expression ends with a term. *)
Lemma expression_ends t rest :
  isTerm t -> wellFormed rest ->
  exists p t', isTerm t' /\ expression t rest = p +:+ t'.
Proof.
  revert t. induction rest as [|[sp u] rest IH]; intros t Ht Hrest.
  - exists "", t. split; [assumption|]. unfold expression. simpl.
    rewrite StrFacts.app_nil_r. reflexivity.
  - apply Forall_cons in Hrest as [[_ Hu] Hrest]. simpl in Hu.
    destruct (IH u Hu Hrest) as (p & t' & Ht' & E).
    exists (t +:+ separatorString sp +:+ p), t'. split; [assumption|].
    unfold expression in *. simpl. rewrite E, !StrFacts.app_assoc. reflexivity.
Qed.

Lemma starts_with_conjunction c u : ~ Expression (word c +:+ u).
Proof.
  intros (t & rest & Ht & _ & E). unfold expression in E.
  destruct (proj1 (Forall_forall _ _) terms_begin t Ht) as [Hand Hor].
  pose proof (clash_stripPrefix _ _ (expressionTail rest) Hand) as H1.
  pose proof (clash_stripPrefix _ _ (expressionTail rest) Hor) as H2.
  rewrite <- E in H1, H2.
  destruct c; simpl word in *; rewrite StrFacts.stripPrefix_app in *; discriminate.
Qed.

Lemma ends_with_conjunction u c : ~ Expression (u +:+ word c).
Proof.
  intros (t & rest & Ht & Hrest & E).
  destruct (expression_ends t rest Ht Hrest) as (p & t' & Ht' & E').
  destruct (proj1 (Forall_forall _ _) terms_end t' Ht') as (x & Hx & Hnd & Hor).
  pose proof (lastTwo_app p _ _ Hx) as Hl. rewrite <- E', <- E in Hl.
  destruct (lastTwo_word u c) as [H|H]; rewrite H in Hl; congruence.
Qed.

Lemma empty_not_expression : ~ Expression "".
Proof.
  intros (t & rest & Ht & _ & E). unfold expression in E.
  pose proof (proj1 (Forall_forall _ _) terms_not_empty t Ht) as Hne.
  destruct t; [congruence|discriminate].
Qed.

End GrammarFacts.

(** ** The claims about the validator *)

Module AccessControl.

Import Regexp Design Analysis SplitFacts SeenFacts ValidateFacts.

(** The cases of TestCheckAccessControlValidation that reach the validator:
    the first is accepted, the others are errors. *)
Lemma test_cases :
  validateAccessControls (withAccessControl "UserPresenceAndBiometryAnySet")
    = Ok ["UserPresence"; "BiometryAnySet"] /\
  validateAccessControls (withAccessControl "UserPresenceAndInvalid")
    = Err (InvalidSyntax "UserPresenceAndInvalid") /\
  validateAccessControls (withAccessControl "AndUserPresence")
    = Err (InvalidSyntax "AndUserPresence") /\
  validateAccessControls (withAccessControl "userpresence")
    = Err (InvalidSyntax "userpresence") /\
  validateAccessControls (withAccessControl "UserPresence,Watch")
    = Err (InvalidSyntax "UserPresence,Watch") /\
  validateAccessControls (withAccessControl "UserPresenceAndUserPresence")
    = Err (DuplicateTerm "UserPresence") /\
  validateAccessControls (withAccessControl "UserPresenceAndAndWatch")
    = Err (InvalidSyntax "UserPresenceAndAndWatch").
Proof. repeat split; vm_compute; reflexivity. Qed.

(** C3: for every sequence of distinct vocabulary terms (one at least, six
    at most since they are distinct) and every choice of "And" and "Or"
    between them, the validator accepts the string that joins them and
    returns exactly the terms, in order. *)
Theorem joined_distinct_terms_accepted
    (a : AwsVault) (t : string) (rest : list (conjunctionWord * string)) :
  accessControl a = joined t rest ->
  Forall isTerm (t :: map snd rest) ->
  NoDup (t :: map snd rest) ->
  validateAccessControls a = Ok (t :: map snd rest).
Proof.
  intros Ha Hterms Hnd.
  apply Forall_cons in Hterms as [Ht Hrest].
  rewrite (validate_expression a t (map bare rest)).
  - rewrite bare_terms.
    rewrite (firstSeen_None _ ∅ []); [reflexivity|exact holds_empty| |assumption|].
    + apply terms_trimmed_all. constructor; assumption.
    + intros x _ H. inversion H.
  - rewrite Ha. apply joined_expression.
  - assumption.
  - apply bare_wellFormed. assumption.
Qed.

Lemma joined_distinct_terms_accepted_witness :
  validateAccessControls (withAccessControl "UserPresenceAndBiometryAnySetOrWatch")
  = Ok ["UserPresence"; "BiometryAnySet"; "Watch"].
Proof.
  apply (joined_distinct_terms_accepted
           (withAccessControl "UserPresenceAndBiometryAnySetOrWatch")
           "UserPresence" [(And, "BiometryAnySet"); (Or, "Watch")]).
  - reflexivity.
  - repeat constructor.
  - apply (bool_decide_unpack _). vm_compute. exact I.
Defined.

(** C8: "AndUserPresence", "UserPresenceAnd", "UserPresence,Watch" and
    "UserPresenceAndAndWatch" are each rejected as invalid syntax. *)
Theorem misplaced_conjunctions_rejected :
  validateAccessControls (withAccessControl "AndUserPresence")
    = Err (InvalidSyntax "AndUserPresence") /\
  validateAccessControls (withAccessControl "UserPresenceAnd")
    = Err (InvalidSyntax "UserPresenceAnd") /\
  validateAccessControls (withAccessControl "UserPresence,Watch")
    = Err (InvalidSyntax "UserPresence,Watch") /\
  validateAccessControls (withAccessControl "UserPresenceAndAndWatch")
    = Err (InvalidSyntax "UserPresenceAndAndWatch").
Proof. repeat split; vm_compute; reflexivity. Qed.

(** C5: when a string passes the structure check and some term occurs in
    it more than once, the validator fails with the duplicate-term error
    that names the first term, from left to right, that repeats an earlier
    one. *)
Theorem repeated_term_rejected
    (a : AwsVault) (t : string) (rest : list (separator * string)) :
  accessControl a = expression t rest ->
  isTerm t -> wellFormed rest ->
  ~ NoDup (t :: map snd rest) ->
  exists x,
    firstRepeat (t :: map snd rest) x /\
    validateAccessControls a = Err (DuplicateTerm x).
Proof.
  intros Ha Ht Hrest Hdup.
  destruct (repeat_or_not (t :: map snd rest)) as [Hnd|[x Hx]]; [contradiction|].
  exists x. split; [exact Hx|].
  rewrite (validate_expression a t rest) by assumption.
  destruct Hx as (pre & post & E & Hnd & Hin).
  rewrite E.
  rewrite (firstSeen_Some pre ∅ [] x post); [reflexivity|exact holds_empty| | | |].
  - rewrite <- E. apply terms_trimmed_all, terms_of_expression; assumption.
  - assumption.
  - intros y _ H. inversion H.
  - left. assumption.
Qed.

(** Where no white space stands around the conjunctions of an accepted
    string, stripping the conjunctions alone gives the list of terms that
    the validator returns. *)
Lemma round_trip (a : AwsVault) (out : list string) :
  StrictExpression (accessControl a) ->
  validateAccessControls a = Ok out ->
  stripConjunctions (accessControl a) = out.
Proof.
  intros (t & rest & Ht & Hrest & Ha) Hv.
  rewrite (validate_expression a t (map bare rest)) in Hv.
  - rewrite bare_terms in Hv.
    destruct (firstSeen _ _); [discriminate|]. injection Hv as <-.
    rewrite Ha. apply StripFacts.stripFrom_joined; assumption.
  - rewrite Ha. apply joined_expression.
  - assumption.
  - apply bare_wellFormed. assumption.
Qed.

(** C4, as the pattern has it: the validator fails with the syntax error,
    which carries the raw string, exactly when the string is not an
    expression of the anchored, case-sensitive grammar
    [TERM (\s* ("And"|"Or") \s* TERM)*], in which white space may surround
    a conjunction.  The empty string, strings that begin or end with a
    conjunction, a lower-cased term, an unknown term and a comma in place
    of a conjunction are all rejected for syntax, and no expression of the
    grammar is. *)
Theorem syntax_error_iff_not_expression :
  (forall a : AwsVault,
     validateAccessControls a = Err (InvalidSyntax (accessControl a))
     <-> ~ Expression (accessControl a)) /\
  (forall (a : AwsVault) (s : string),
     validateAccessControls a = Err (InvalidSyntax s) ->
     s = accessControl a /\ ~ Expression (accessControl a)) /\
  validateAccessControls (withAccessControl "") = Err (InvalidSyntax "") /\
  (forall c u,
     validateAccessControls (withAccessControl (word c +:+ u))
     = Err (InvalidSyntax (word c +:+ u))) /\
  (forall u c,
     validateAccessControls (withAccessControl (u +:+ word c))
     = Err (InvalidSyntax (u +:+ word c))) /\
  validateAccessControls (withAccessControl "userpresence")
    = Err (InvalidSyntax "userpresence") /\
  validateAccessControls (withAccessControl "UserPresenceAndInvalid")
    = Err (InvalidSyntax "UserPresenceAndInvalid") /\
  validateAccessControls (withAccessControl "UserPresence,Watch")
    = Err (InvalidSyntax "UserPresence,Watch").
Proof.
  assert (Hiff : forall a : AwsVault,
    validateAccessControls a = Err (InvalidSyntax (accessControl a))
    <-> ~ Expression (accessControl a)).
  { intros a. rewrite <- PatternFacts.MatchString_structure. split.
    - intros Hv Hm. exact (validate_not_syntax a _ Hm Hv).
    - intros Hm. apply validate_rejected.
      destruct (MatchString _ _); [contradiction|reflexivity]. }
  split; [exact Hiff|].
  split.
  { intros a s Hv.
    destruct (MatchString (structurePattern (alternation accessControlOptions)) (accessControl a))
      eqn:Hm.
    - exfalso. exact (validate_not_syntax a _ Hm Hv).
    - rewrite (validate_rejected a Hm) in Hv. injection Hv as <-.
      split; [reflexivity|].
      rewrite <- PatternFacts.MatchString_structure, Hm. discriminate. }
  split; [apply (Hiff (withAccessControl "")), GrammarFacts.empty_not_expression|].
  split.
  { intros c u. apply (Hiff (withAccessControl (word c +:+ u))).
    apply GrammarFacts.starts_with_conjunction. }
  split.
  { intros u c. apply (Hiff (withAccessControl (u +:+ word c))).
    apply GrammarFacts.ends_with_conjunction. }
  repeat split; vm_compute; reflexivity.
Qed.

(** C4 as stated fails: "UserPresence And Watch" is no string of
    [TERM (("And"|"Or") TERM)*], and the validator accepts it. *)
Lemma spaced_conjunction_accepted :
  ~ StrictExpression "UserPresence And Watch" /\
  validateAccessControls (withAccessControl "UserPresence And Watch")
  = Ok ["UserPresence"; "Watch"].
Proof.
  split; [|vm_compute; reflexivity].
  intros (t & rest & Ht & Hrest & E).
  pose proof (StripFacts.stripFrom_joined rest t Ht Hrest) as Hs.
  rewrite <- E in Hs. vm_compute in Hs. injection Hs as <- _.
  revert Ht. apply (bool_decide_eq_false_1 _). vm_compute. reflexivity.
Qed.

Lemma repeated_term_rejected_witness :
  exists x,
    firstRepeat ["UserPresence"; "Watch"; "UserPresence"] x /\
    validateAccessControls
      (withAccessControl "UserPresence And Watch Or UserPresence")
    = Err (DuplicateTerm x).
Proof.
  apply (repeated_term_rejected
           (withAccessControl "UserPresence And Watch Or UserPresence")
           "UserPresence"
           [({| before := " "; conj := And; after := " " |}, "Watch");
            ({| before := " "; conj := Or; after := " " |}, "UserPresence")]).
  - reflexivity.
  - repeat constructor.
  - repeat constructor.
  - apply (bool_decide_eq_false_1 _). vm_compute. reflexivity.
Defined.

Lemma round_trip_witness :
  stripConjunctions "UserPresenceAndWatch" = ["UserPresence"; "Watch"].
Proof.
  apply (round_trip (withAccessControl "UserPresenceAndWatch")
           ["UserPresence"; "Watch"]).
  - exists "UserPresence", [(And, "Watch")]. repeat constructor.
  - vm_compute. reflexivity.
Defined.

End AccessControl.

(** ** The steps of the copy command *)

Module CopyFacts.

Import Copy Design Trace.

Section Generic.

Context {payload err K : Type} `{SecretStore payload err K}.

#[local] Abbreviation world := (Copy.world payload K).
#[local] Abbreviation M := (@Copy.M payload err K).

Lemma transfers_refl (w : world) : transfers w w.
Proof. split; [reflexivity|]. exists []. rewrite app_nil_r. auto. Qed.

Lemma transfers_trans (w1 w2 w3 : world) :
  transfers w1 w2 -> transfers w2 w3 -> transfers w1 w3.
Proof.
  intros [Hs1 (n1 & Hc1 & Hn1)] [Hs2 (n2 & Hc2 & Hn2)].
  split; [congruence|]. exists (n1 ++ n2).
  rewrite Hc2, Hc1, app_assoc. split; [reflexivity|].
  apply Forall_app; auto.
Qed.

Lemma transferring_ret {A : Type} (a : A) : transferring (ret a : M A).
Proof. intros w. apply transfers_refl. Qed.

Lemma transferring_bind {A B : Type} (m : M A) (f : A -> M B) :
  transferring m -> (forall a, transferring (f a)) ->
  transferring (bind m f).
Proof.
  intros Hm Hf w. unfold bind. specialize (Hm w).
  destruct (m w) as [[a|e] w1]; simpl in *; [|exact Hm].
  eapply transfers_trans; [exact Hm|apply Hf].
Qed.

Lemma transferring_onError {A : Type} (m : M A) (h : err -> M unit) :
  transferring m -> (forall e, transferring (h e)) ->
  transferring (onError m h).
Proof.
  intros Hm Hh w. unfold onError. specialize (Hm w).
  destruct (m w) as [[a|e] w1]; simpl in *; [exact Hm|].
  eapply transfers_trans; [exact Hm|apply Hh].
Qed.

Lemma transferring_forRange names (body : string -> M unit) :
  (forall name, transferring (body name)) ->
  transferring (forRange names body).
Proof.
  intros Hb. induction names as [|name names IH]; simpl.
  - apply transferring_ret.
  - apply transferring_bind; [apply Hb|intros _; exact IH].
Qed.

Lemma transferring_logPrintf line : transferring (logPrintf line : M unit).
Proof.
  intros w. split; [reflexivity|]. exists []. simpl.
  rewrite app_nil_r. auto.
Qed.

Lemma transferring_fmtPrintf line : transferring (fmtPrintf line : M unit).
Proof.
  intros w. split; [reflexivity|]. exists []. simpl.
  rewrite app_nil_r. auto.
Qed.

Lemma transferring_get ns name :
  transferring (get {| keyring := Source; kind := ns |} name).
Proof.
  intros w. split; [reflexivity|]. simpl.
  exists [(Source, OpGet ns name)]. split; [reflexivity|].
  constructor; [|constructor]. left. split; [reflexivity|exact I].
Qed.

Lemma transferring_set ns name p :
  transferring (set {| keyring := Destination; kind := ns |} name p).
Proof.
  intros w. unfold set. simpl.
  destruct (Set_ ns name p (dst w)) as [k' e]. split; [reflexivity|]. simpl.
  exists [(Destination, OpSet ns name p)]. split; [reflexivity|].
  constructor; [|constructor]. right. split; [reflexivity|exact I].
Qed.

Lemma transferring_transfer l1 l2 l3 : transferring (transfer l1 l2 l3).
Proof.
  unfold transfer.
  repeat first
    [ apply transferring_bind
    | apply transferring_forRange
    | apply transferring_onError
    | apply transferring_logPrintf
    | apply transferring_fmtPrintf
    | apply transferring_get
    | apply transferring_set
    | apply transferring_ret
    | intro ].
Qed.

(** The command enumerates the three namespaces, stops at the first
    enumeration that fails, and only then transfers. *)
Lemma run_unfold input source destination :
  run input source destination =
  match Keys Credential source with
  | Err e => (Err e, enumerated 1 source destination)
  | Ok l1 =>
      match Keys OIDCToken source with
      | Err e => (Err e, enumerated 2 source destination)
      | Ok l2 =>
          match Keys Session source with
          | Err e => (Err e, enumerated 3 source destination)
          | Ok l3 => transfer l1 l2 l3 (enumerated 3 source destination)
          end
      end
  end.
Proof.
  unfold run, CopyCommand, initial. unfold bind at 1. simpl.
  destruct (Keys Credential source) as [l1|e]; [|reflexivity].
  unfold bind at 1. simpl.
  destruct (Keys OIDCToken source) as [l2|e]; [|reflexivity].
  unfold bind at 1. simpl.
  destruct (Keys Session source) as [l3|e]; [|reflexivity].
  reflexivity.
Qed.

End Generic.

End CopyFacts.

(** ** The claims about the copy command *)

Module CopyClaims.

Import Copy Design Trace Scenario CopyFacts.

Section Generic.

Context {payload err K : Type} `{SecretStore payload err K}.

(** C9: whatever the two stores and whatever the outcome, the command
    leaves the source store as it found it, and the only methods that it
    calls on the source are key enumeration and reads. *)
Theorem source_never_mutated
    (input : CopyCommandInput) (source destination : K) :
  let w' := snd (run input source destination) in
  src w' = source /\
  Forall (fun c => fst c = Source -> isKeys c \/ isGet c) (calls w').
Proof.
  simpl. rewrite run_unfold.
  destruct (Keys Credential source) as [l1|e];
    [|split; [reflexivity|repeat constructor]].
  destruct (Keys OIDCToken source) as [l2|e];
    [|split; [reflexivity|repeat constructor]].
  destruct (Keys Session source) as [l3|e];
    [|split; [reflexivity|repeat constructor]].
  destruct (transferring_transfer l1 l2 l3 (enumerated 3 source destination))
    as [Hs (new & Hc & Hn)].
  split; [exact Hs|]. rewrite Hc. apply Forall_app. split.
  - repeat constructor.
  - eapply Forall_impl; [exact Hn|].
    intros c [[_ Hg]|[Hd _]] Hsrc; [right; exact Hg|congruence].
Qed.

(** C10: the command enumerates the keys of all three namespaces before
    it reads anything from the source or writes anything to the
    destination; so when an enumeration fails, for any of the three
    namespaces, the command returns that error and the destination is
    untouched: no read and no write was made. *)
Theorem enumeration_precedes_transfer
    (input : CopyCommandInput) (source destination : K) :
  let r := fst (run input source destination) in
  let w' := snd (run input source destination) in
  (forall pre c post,
     calls w' = pre ++ c :: post -> isGet c \/ isSet c ->
     exists between, pre = enumeration ++ between) /\
  (forall ns e,
     Keys ns source = Err e ->
     (forall ns', rank ns' < rank ns -> exists names, Keys ns' source = Ok names) ->
     r = Err e /\ dst w' = destination /\ Forall isKeys (calls w')).
Proof.
  simpl. rewrite run_unfold.
  assert (Hearly : forall n pre (c : handle * op payload) post,
            take n enumeration = pre ++ c :: post -> isGet c \/ isSet c -> False).
  { intros n pre c post E Hc.
    assert (Hin : c ∈ take n enumeration)
      by (rewrite E; apply elem_of_app; right; left).
    apply elem_of_take in Hin as (i & Hin & _).
    apply list_elem_of_lookup_2 in Hin.
    unfold enumeration in Hin.
    repeat (apply elem_of_cons in Hin as [->|Hin]);
      [destruct Hc as [[]|[]]..|inversion Hin]. }
  split.
  - intros pre c post.
    destruct (Keys Credential source) as [l1|e];
      [|intros E Hc; destruct (Hearly 1 _ _ _ E Hc)].
    destruct (Keys OIDCToken source) as [l2|e];
      [|intros E Hc; destruct (Hearly 2 _ _ _ E Hc)].
    destruct (Keys Session source) as [l3|e];
      [|intros E Hc; destruct (Hearly 3 _ _ _ E Hc)].
    destruct (transferring_transfer l1 l2 l3 (enumerated 3 source destination))
      as [_ (new & -> & _)].
    intros E Hc. symmetry in E.
    apply (app_eq_inv pre (c :: post) enumeration new) in E
      as [(k & -> & _)|(k & Hk & E)].
    + exists k. reflexivity.
    + destruct k as [|c' k].
      * rewrite app_nil_r in Hk. subst pre. exists []. reflexivity.
      * injection E as -> _. exfalso.
        apply (Hearly 3 pre c' k); [exact Hk|exact Hc].
  - intros ns e Hns Hbefore.
    destruct ns.
    + rewrite Hns. repeat split; repeat constructor.
    + destruct (Hbefore Credential ltac:(simpl; lia)) as [l1 ->].
      rewrite Hns. repeat split; repeat constructor.
    + destruct (Hbefore Credential ltac:(simpl; lia)) as [l1 ->].
      destruct (Hbefore OIDCToken ltac:(simpl; lia)) as [l2 ->].
      rewrite Hns. repeat split; repeat constructor.
Qed.

(** C1, as the command has it: when the enumeration of the OIDC tokens
    fails, the credentials having been enumerated, the command returns
    that error before any transfer, the credentials' included: its only
    calls are the two enumerations, and the destination is untouched. *)
Theorem oidc_enumeration_failure
    (input : CopyCommandInput) (source destination : K)
    (names : list string) (e : err) :
  Keys Credential source = Ok names ->
  Keys OIDCToken source = Err e ->
  let w' := snd (run input source destination) in
  fst (run input source destination) = Err e /\
  calls w' = [(Source, OpKeys Credential); (Source, OpKeys OIDCToken)] /\
  dst w' = destination /\ src w' = source /\ stdout w' = [].
Proof.
  intros Hc Ho. simpl. rewrite run_unfold, Hc, Ho. repeat split.
Qed.

(** The run in which the second read of a credential fails. *)
Lemma second_read_failure
    (input : CopyCommandInput) (source destination d1 : K)
    (k1 k2 : string) (more l2 l3 : list string) (v1 : payload) (e : err) :
  Keys Credential source = Ok (k1 :: k2 :: more) ->
  Keys OIDCToken source = Ok l2 ->
  Keys Session source = Ok l3 ->
  Get Credential k1 source = Ok v1 ->
  Set_ Credential k1 v1 destination = (d1, None) ->
  Get Credential k2 source = Err e ->
  let w' := snd (run input source destination) in
  fst (run input source destination) = Err e /\
  dst w' = d1 /\ src w' = source /\ stdout w' = [] /\
  calls w' = enumeration ++
    [(Source, OpGet Credential k1); (Destination, OpSet Credential k1 v1);
     (Source, OpGet Credential k2)].
Proof.
  intros Hk1 Hk2 Hk3 Hg1 Hs1 Hg2. simpl.
  rewrite run_unfold, Hk1, Hk2, Hk3.
  cbv [transfer enumerated bind logPrintf get set forRange CredentialKeyring
         keyring kind store called setStore src dst calls stdout logged].
  rewrite Hg1, Hs1, Hg2. repeat split.
Qed.

End Generic.

(** *** On stores in memory *)

Import MemStore.

Lemma lookup_head k v l : lookup k ((k, v) :: l) = Some v.
Proof. simpl. rewrite String.eqb_refl. reflexivity. Qed.

(** C2, as the command has it: when, of three credentials, the read of the
    second fails after the first was copied into an empty destination, the
    command returns the error of that read and the destination holds the
    first credential and nothing else; the command reports no counts, since
    it prints them only when it completes. *)
Theorem second_read_fails
    (input : CopyCommandInput) (source destination : MemStore.t)
    (k1 v1 k2 v2 k3 v3 : string) (e : storeError) :
  items source Credential = [(k1, v1); (k2, v2); (k3, v3)] ->
  (forall ns, keysFault source ns = None) ->
  getFault source Credential k1 = None ->
  getFault source Credential k2 = Some e ->
  (forall ns, items destination ns = []) ->
  setFault destination Credential k1 = None ->
  let w' := snd (run input source destination) in
  fst (run input source destination) = Err e /\
  items (dst w') Credential = [(k1, v1)] /\
  items (dst w') OIDCToken = [] /\
  items (dst w') Session = [] /\
  (forall r : CopyResult, ~ reports w' r).
Proof.
  intros Hitems Hkeys Hget1 Hget2 Hdest Hset.
  destruct (second_read_failure input source destination
              (fst (storeSet Credential k1 v1 destination))
              k1 k2 [k3] (map fst (items source OIDCToken))
              (map fst (items source Session)) v1 e)
    as (Hr & Hd & _ & Hout & _).
  - simpl. unfold storeKeys. rewrite Hkeys, Hitems. reflexivity.
  - simpl. unfold storeKeys. rewrite Hkeys. reflexivity.
  - simpl. unfold storeKeys. rewrite Hkeys. reflexivity.
  - simpl. unfold storeGet. rewrite Hget1, Hitems, lookup_head. reflexivity.
  - simpl. unfold storeSet. rewrite Hset. reflexivity.
  - simpl. unfold storeGet. rewrite Hget2. reflexivity.
  - simpl. rewrite Hr, Hd. unfold storeSet. rewrite Hset. simpl.
    rewrite !Hdest. repeat split.
    intros r Hrep. unfold reports in Hrep. rewrite Hout in Hrep. inversion Hrep.
Qed.

Lemma second_read_fails_witness :
  let w' := snd (run anyInput unreadableSecond MemStore.empty) in
  fst (run anyInput unreadableSecond MemStore.empty)
    = Err (Failure "read failed") /\
  items (dst w') Credential = [("a", "x")] /\
  items (dst w') OIDCToken = [] /\
  items (dst w') Session = [] /\
  (forall r : CopyResult, ~ reports w' r).
Proof.
  apply (second_read_fails anyInput unreadableSecond MemStore.empty
           "a" "x" "b" "y" "c" "z" (Failure "read failed"));
    reflexivity.
Defined.

(** C2 as stated fails: in its scenario no result reports one credential
    copied, since the command reports nothing when it aborts. *)
Lemma second_read_reports_nothing :
  fst (run anyInput unreadableSecond MemStore.empty)
    = Err (Failure "read failed") /\
  items (dst (snd (run anyInput unreadableSecond MemStore.empty))) Credential
    = [("a", "x")] /\
  stdout (snd (run anyInput unreadableSecond MemStore.empty)) = [] /\
  ~ (exists r : CopyResult,
       copiedCredentials r = 1 /\
       reports (snd (run anyInput unreadableSecond MemStore.empty)) r).
Proof.
  repeat split; try (vm_compute; reflexivity).
  intros (r & _ & Hr). unfold reports in Hr.
  vm_compute in Hr. inversion Hr.
Qed.

Lemma copiedMessage_2_0_0 :
  copiedMessage 2 0 0
  = "Copied 2 credentials, 0 OIDC tokens, and 0 sessions." +:+ newline.
Proof. reflexivity. Qed.

(** C7 as stated fails: the command returns nothing but its error, so no
    count is returned.  From the source with the two credentials and from
    an empty source alike the value returned is nil, with nothing in it;
    the counts stand in the line printed on standard output, and only
    there do the two runs differ. *)
Lemma returned_value_holds_no_count :
  fst (run anyInput (credentialsOnly [("a", "x"); ("b", "y")]) MemStore.empty)
  = Ok tt /\
  fst (run anyInput MemStore.empty MemStore.empty) = Ok tt /\
  stdout (snd (run anyInput (credentialsOnly [("a", "x"); ("b", "y")])
                 MemStore.empty))
  = ["Copied 2 credentials, 0 OIDC tokens, and 0 sessions."
     +:+ String "010" ""] /\
  stdout (snd (run anyInput MemStore.empty MemStore.empty))
  = ["Copied 0 credentials, 0 OIDC tokens, and 0 sessions."
     +:+ String "010" ""].
Proof. repeat split; vm_compute; reflexivity. Qed.

(** C7, as the command has it: from a source that holds exactly the
    credentials "a" with payload "x" and "b" with payload "y", in either
    order, and no OIDC token or session, into an empty destination, the
    command returns no error, and the counts 2, 0 and 0 are printed, not
    returned: standard output holds the one line
    "Copied 2 credentials, 0 OIDC tokens, and 0 sessions." and a line feed.
    After the three enumerations the command reads and writes each of the
    two credentials, in the order of the enumeration, and makes no other
    call; afterwards the destination holds exactly those two credentials,
    with their payloads, and nothing else, and the source is unchanged. *)
Theorem two_credentials_copied
    (input : CopyCommandInput) (cs : list (string * string)) :
  Permutation cs [("a", "x"); ("b", "y")] ->
  let source := credentialsOnly cs in
  let w' := snd (run input source MemStore.empty) in
  fst (run input source MemStore.empty) = Ok tt /\
  stdout w' = ["Copied 2 credentials, 0 OIDC tokens, and 0 sessions."
               +:+ String "010" ""] /\
  reports w' {| copiedCredentials := 2; copiedOIDCTokens := 0;
                copiedSessions := 0 |} /\
  calls w' = enumeration ++
             flat_map (fun kv => [(Source, OpGet Credential (fst kv));
                                  (Destination,
                                   OpSet Credential (fst kv) (snd kv))]) cs /\
  items (dst w') Credential = cs /\
  items (dst w') OIDCToken = [] /\
  items (dst w') Session = [] /\
  src w' = source.
Proof.
  intros Hp. symmetry in Hp. unfold reports. cbv zeta.
  apply Permutation_length_2_inv in Hp as [->| ->];
    match goal with
    | |- context [run input ?source ?destination] =>
        assert (Hout : stdout (snd (run input source destination))
                       = [copiedMessage 2 0 0]) by (vm_compute; reflexivity)
    end;
    (repeat split; try (vm_compute; reflexivity));
    rewrite Hout; apply list_elem_of_here.
Qed.

Lemma two_credentials_copied_witness :
  let source := credentialsOnly [("a", "x"); ("b", "y")] in
  let w' := snd (run anyInput source MemStore.empty) in
  fst (run anyInput source MemStore.empty) = Ok tt /\
  stdout w' = ["Copied 2 credentials, 0 OIDC tokens, and 0 sessions."
               +:+ String "010" ""] /\
  reports w' {| copiedCredentials := 2; copiedOIDCTokens := 0;
                copiedSessions := 0 |} /\
  calls w' = [(Source, OpKeys Credential); (Source, OpKeys OIDCToken);
              (Source, OpKeys Session);
              (Source, OpGet Credential "a");
              (Destination, OpSet Credential "a" "x");
              (Source, OpGet Credential "b");
              (Destination, OpSet Credential "b" "y")] /\
  items (dst w') Credential = [("a", "x"); ("b", "y")] /\
  items (dst w') OIDCToken = [] /\
  items (dst w') Session = [] /\
  src w' = source.
Proof.
  apply (two_credentials_copied anyInput [("a", "x"); ("b", "y")]).
  apply Permutation_refl.
Defined.

(** C1 as stated fails: the credential of the source can be enumerated
    and read, the enumeration of the OIDC tokens fails, and the destination
    holds no credential afterwards; none was copied before the failure. *)
Lemma credentials_not_copied_before_failure :
  Keys Credential unlistableTokens = Ok ["a"] /\
  Get Credential "a" unlistableTokens = Ok "x" /\
  fst (run anyInput unlistableTokens MemStore.empty)
    = Err (Failure "enumeration failed") /\
  lookup "a"
    (items (dst (snd (run anyInput unlistableTokens MemStore.empty))) Credential)
    = None.
Proof. repeat split. Qed.

Lemma oidc_enumeration_failure_witness :
  let w' := snd (run anyInput unlistableTokens MemStore.empty) in
  fst (run anyInput unlistableTokens MemStore.empty)
    = Err (Failure "enumeration failed") /\
  calls w' = [(Source, OpKeys Credential); (Source, OpKeys OIDCToken)] /\
  dst w' = MemStore.empty /\ src w' = unlistableTokens /\ stdout w' = [].
Proof.
  apply (oidc_enumeration_failure anyInput unlistableTokens MemStore.empty
           ["a"] (Failure "enumeration failed")); reflexivity.
Defined.

Lemma enumeration_precedes_transfer_witness :
  fst (run anyInput unlistableTokens MemStore.empty)
    = Err (Failure "enumeration failed") /\
  dst (snd (run anyInput unlistableTokens MemStore.empty)) = MemStore.empty /\
  Forall isKeys (calls (snd (run anyInput unlistableTokens MemStore.empty))).
Proof.
  apply (proj2 (enumeration_precedes_transfer anyInput unlistableTokens
                  MemStore.empty) OIDCToken (Failure "enumeration failed")).
  - reflexivity.
  - intros [| |] Hlt; simpl in Hlt; [exists ["a"]; reflexivity|lia|lia].
Defined.

End CopyClaims.

(** ** More about the validator: what it accepts and what it returns *)

Module ValidatorProps.

Import Regexp Design Analysis SplitFacts SeenFacts ValidateFacts.

(** The outcome of the loop over the terms of an expression. *)
Lemma firstSeen_terms (terms : list string) :
  Forall isTerm terms ->
  (NoDup terms /\ firstSeen terms ∅ = None) \/
  (exists x, firstRepeat terms x /\ firstSeen terms ∅ = Some x).
Proof.
  intros Hterms. pose proof (terms_trimmed_all terms Hterms) as Htrim.
  destruct (repeat_or_not terms) as [Hnd|[x Hx]].
  - left. split; [exact Hnd|].
    apply (firstSeen_None terms ∅ []); [exact holds_empty|assumption..|].
    intros y _ H. inversion H.
  - right. exists x. split; [exact Hx|].
    destruct Hx as (pre & post & -> & Hnd & Hin).
    apply (firstSeen_Some pre ∅ [] x post);
      [exact holds_empty|assumption..| |left; exact Hin].
    intros y _ H. inversion H.
Qed.

Lemma firstRepeat_elem (terms : list string) (x : string) :
  firstRepeat terms x -> x ∈ terms.
Proof.
  intros (pre & post & -> & _ & _). apply elem_of_app. right. left.
Qed.

(** What the validator does with a string that passes the structure
    check. *)
Lemma validate_matched (a : AwsVault) :
  MatchString (structurePattern (alternation accessControlOptions))
    (accessControl a) = true ->
  exists t rest,
    isTerm t /\ wellFormed rest /\ accessControl a = expression t rest /\
    ((NoDup (t :: map snd rest) /\
      validateAccessControls a = Ok (t :: map snd rest)) \/
     (exists x, firstRepeat (t :: map snd rest) x /\
                validateAccessControls a = Err (DuplicateTerm x))).
Proof.
  intros Hm. apply PatternFacts.MatchString_structure in Hm
    as (t & rest & Ht & Hrest & Ha).
  exists t, rest. repeat (split; [assumption|]).
  rewrite (validate_expression a t rest Ha Ht Hrest).
  destruct (firstSeen_terms _ (terms_of_expression t rest Ht Hrest))
    as [[Hnd ->]|(x & Hx & ->)]; [left|right]; eauto.
Qed.

Lemma validate_Ok_inv (a : AwsVault) (out : list string) :
  validateAccessControls a = Ok out ->
  exists t rest,
    isTerm t /\ wellFormed rest /\ accessControl a = expression t rest /\
    NoDup (t :: map snd rest) /\ out = t :: map snd rest.
Proof.
  intros Hv.
  destruct (MatchString (structurePattern (alternation accessControlOptions))
              (accessControl a)) eqn:Hm.
  - destruct (validate_matched a Hm)
      as (t & rest & Ht & Hrest & Ha & [[Hnd Hok]|(x & _ & Herr)]).
    + rewrite Hok in Hv. injection Hv as <-. exists t, rest. auto.
    + rewrite Herr in Hv. discriminate.
  - rewrite (validate_rejected a Hm) in Hv. discriminate.
Qed.

(** X1: the validator accepts a string, and returns the list [out], exactly when
    the string is an expression of the grammar
    [TERM (\s* ("And"|"Or") \s* TERM)*] whose terms are pairwise distinct
    and [out] lists them in order. *)
Theorem accepted_iff (a : AwsVault) (out : list string) :
  validateAccessControls a = Ok out <->
  exists t rest,
    isTerm t /\ wellFormed rest /\ accessControl a = expression t rest /\
    NoDup (t :: map snd rest) /\ out = t :: map snd rest.
Proof.
  split; [apply validate_Ok_inv|].
  intros (t & rest & Ht & Hrest & Ha & Hnd & ->).
  rewrite (validate_expression a t rest Ha Ht Hrest).
  destruct (firstSeen_terms _ (terms_of_expression t rest Ht Hrest))
    as [[_ ->]|(x & Hx & _)]; [reflexivity|].
  exfalso. exact (firstRepeat_not_NoDup _ _ Hx Hnd).
Qed.

Lemma valid_terms (out : list string) :
  (exists t rest, isTerm t /\ wellFormed rest /\
     NoDup (t :: map snd rest) /\ out = t :: map snd rest) ->
  out <> [] /\ Forall isTerm out /\ NoDup out /\
  length out <= length accessControlOptions.
Proof.
  intros (t & rest & Ht & Hrest & Hnd & ->).
  pose proof (terms_of_expression t rest Ht Hrest) as Hterms.
  split; [discriminate|]. split; [exact Hterms|]. split; [exact Hnd|].
  apply submseteq_length, NoDup_submseteq; [exact Hnd|].
  intros x Hx. exact (proj1 (Forall_forall _ _) Hterms x Hx).
Qed.

(** X2: a list that the validator returns is never empty, holds terms of the
    vocabulary only, holds none of them twice, and so has six terms at
    most. *)
Theorem accepted_terms (a : AwsVault) (out : list string) :
  validateAccessControls a = Ok out ->
  out <> [] /\ Forall isTerm out /\ NoDup out /\
  length out <= length accessControlOptions.
Proof.
  intros Hv. apply validate_Ok_inv in Hv
    as (t & rest & Ht & Hrest & _ & Hnd & E).
  apply valid_terms. exists t, rest. auto.
Qed.

(** X3: when the validator fails with the duplicate-term error, the string is
    an expression of the grammar, and the term that the error names is a
    term of the vocabulary: the first term of the string, from left to
    right, that repeats an earlier one. *)
Theorem duplicate_error_names_repeat (a : AwsVault) (x : string) :
  validateAccessControls a = Err (DuplicateTerm x) ->
  isTerm x /\
  exists t rest,
    isTerm t /\ wellFormed rest /\ accessControl a = expression t rest /\
    firstRepeat (t :: map snd rest) x.
Proof.
  intros Hv.
  destruct (MatchString (structurePattern (alternation accessControlOptions))
              (accessControl a)) eqn:Hm.
  - destruct (validate_matched a Hm)
      as (t & rest & Ht & Hrest & Ha & [[_ Hok]|(y & Hy & Herr)]).
    + rewrite Hok in Hv. discriminate.
    + rewrite Herr in Hv. injection Hv as ->.
      split; [|exists t, rest; auto].
      apply firstRepeat_elem in Hy.
      exact (proj1 (Forall_forall _ _) (terms_of_expression t rest Ht Hrest) x Hy).
  - rewrite (validate_rejected a Hm) in Hv. discriminate.
Qed.

(** X4: the conjunctions are parsed and not evaluated: two expressions with the
    same terms in the same order get the same result, whichever
    conjunctions join them and whatever white space surrounds these. *)
Theorem conjunctions_not_evaluated
    (a1 a2 : AwsVault) (t : string) (rest1 rest2 : list (separator * string)) :
  isTerm t -> wellFormed rest1 -> wellFormed rest2 ->
  accessControl a1 = expression t rest1 ->
  accessControl a2 = expression t rest2 ->
  map snd rest1 = map snd rest2 ->
  validateAccessControls a1 = validateAccessControls a2.
Proof.
  intros Ht H1 H2 Ha1 Ha2 E.
  rewrite (validate_expression a1 t rest1 Ha1 Ht H1).
  rewrite (validate_expression a2 t rest2 Ha2 Ht H2).
  rewrite E. reflexivity.
Qed.

Lemma accepted_iff_witness :
  validateAccessControls (withAccessControl "Watch Or DevicePasscode")
  = Ok ["Watch"; "DevicePasscode"].
Proof.
  apply (proj2 (accepted_iff (withAccessControl "Watch Or DevicePasscode")
                  ["Watch"; "DevicePasscode"])).
  exists "Watch", [({| before := " "; conj := Or; after := " " |}, "DevicePasscode")].
  split; [repeat constructor|]. split; [repeat constructor|].
  split; [reflexivity|]. split; [|reflexivity].
  apply (bool_decide_unpack _). vm_compute. exact I.
Defined.

Lemma accepted_terms_witness :
  ["Watch"; "DevicePasscode"] <> [] /\
  Forall isTerm ["Watch"; "DevicePasscode"] /\
  NoDup ["Watch"; "DevicePasscode"] /\
  length ["Watch"; "DevicePasscode"] <= length accessControlOptions.
Proof.
  apply (accepted_terms (withAccessControl "Watch Or DevicePasscode")).
  vm_compute. reflexivity.
Defined.

Lemma duplicate_error_names_repeat_witness :
  isTerm "Watch" /\
  exists t rest,
    isTerm t /\ wellFormed rest /\
    "DevicePasscodeAndWatchOrWatch" = expression t rest /\
    firstRepeat (t :: map snd rest) "Watch".
Proof.
  apply (duplicate_error_names_repeat
           (withAccessControl "DevicePasscodeAndWatchOrWatch") "Watch").
  vm_compute. reflexivity.
Defined.

Lemma conjunctions_not_evaluated_witness :
  validateAccessControls (withAccessControl "UserPresenceAndWatch")
  = validateAccessControls (withAccessControl "UserPresence  Or Watch").
Proof.
  apply (conjunctions_not_evaluated
           (withAccessControl "UserPresenceAndWatch")
           (withAccessControl "UserPresence  Or Watch")
           "UserPresence"
           [({| before := ""; conj := And; after := "" |}, "Watch")]
           [({| before := "  "; conj := Or; after := " " |}, "Watch")]);
    try reflexivity; repeat constructor.
Defined.

End ValidatorProps.

(** ** Stripping the conjunctions of an accepted expression *)
Module RoundTrip.

Import Regexp Strings Design Analysis SplitFacts ValidateFacts.

#[local] Arguments Ascii.eqb : simpl never.

(** *** Reversal *)

Lemma rev_app_append (a : string) : forall b,
  String.rev_app a b = String.rev a +:+ b.
Proof.
  unfold String.rev.
  induction a as [|c a IH]; intros b; [reflexivity|].
  cbn [String.rev_app]. rewrite (IH (String c b)), (IH (String c "")).
  rewrite StrFacts.app_assoc. reflexivity.
Qed.

Lemma rev_cons (c : ascii) (a : string) :
  String.rev (String c a) = String.rev a +:+ String c "".
Proof. unfold String.rev at 1. cbn [String.rev_app]. apply rev_app_append. Qed.

Lemma rev_append (a b : string) :
  String.rev (a +:+ b) = String.rev b +:+ String.rev a.
Proof.
  induction a as [|c a IH].
  - rewrite StrFacts.app_nil_l. change (String.rev "") with "".
    rewrite StrFacts.app_nil_r. reflexivity.
  - rewrite StrFacts.app_cons, !rev_cons, IH, StrFacts.app_assoc.
    reflexivity.
Qed.

Lemma rev_involutive (a : string) : String.rev (String.rev a) = a.
Proof.
  induction a as [|c a IH]; [reflexivity|].
  rewrite rev_cons, rev_append, IH. reflexivity.
Qed.

(** *** White space *)

Lemma isSpace_inv (c : ascii) :
  isSpace c = true ->
  c = "009"%char \/ c = "010"%char \/ c = "012"%char \/ c = "013"%char \/
  c = " "%char.
Proof.
  destruct c as [[] [] [] [] [] [] [] []]; vm_compute; intros H;
    try discriminate H; auto 6.
Qed.

Lemma isSpace_asciiSpace (c : ascii) : isSpace c = true -> asciiSpace c = true.
Proof.
  intros H. destruct (isSpace_inv c H) as [->|[->|[->|[->| ->]]]];
    reflexivity.
Qed.

Lemma isSpace_no_conjunction (c : ascii) (s : string) :
  isSpace c = true ->
  String.prefix "And" (String c s) = false /\
  String.prefix "Or" (String c s) = false.
Proof.
  intros H. destruct (isSpace_inv c H) as [->|[->|[->|[->| ->]]]];
    split; reflexivity.
Qed.

Lemma allSpace_append (a b : string) :
  allSpace (a +:+ b) = allSpace a && allSpace b.
Proof.
  induction a as [|c a IH]; [reflexivity|].
  rewrite StrFacts.app_cons. cbn [allSpace]. rewrite IH.
  apply andb_assoc.
Qed.

Lemma allSpace_rev (w : string) : allSpace (String.rev w) = allSpace w.
Proof.
  induction w as [|c w IH]; [reflexivity|].
  rewrite rev_cons, allSpace_append, IH. cbn [allSpace].
  rewrite andb_true_r. apply andb_comm.
Qed.

(** *** Trimming a term that stands in white space *)

Lemma trimLeft_spaces (w : string) : forall s,
  allSpace w = true -> trimLeft (w +:+ s) = trimLeft s.
Proof.
  induction w as [|c w IH]; intros s Hw; [reflexivity|].
  cbn [allSpace] in Hw. apply andb_true_iff in Hw as [Hc Hw].
  rewrite StrFacts.app_cons. cbn [trimLeft].
  rewrite (isSpace_asciiSpace c Hc). apply IH. exact Hw.
Qed.

Lemma trimLeftRev_spaces (w : string) : forall s,
  allSpace w = true -> trimLeftRev (w +:+ s) = trimLeftRev s.
Proof.
  induction w as [|c w IH]; intros s Hw; [reflexivity|].
  cbn [allSpace] in Hw. apply andb_true_iff in Hw as [Hc Hw].
  rewrite StrFacts.app_cons. cbn [trimLeftRev].
  rewrite (isSpace_asciiSpace c Hc). apply IH. exact Hw.
Qed.

Lemma terms_keep_their_ends :
  Forall (fun t => (forall u, trimLeft (t +:+ u) = t +:+ u) /\
                   trimLeftRev (String.rev t) = String.rev t)
    accessControlOptions.
Proof.
  repeat (constructor; [split; [intros u|]; reflexivity|]). constructor.
Qed.

Lemma TrimSpace_term_in_spaces (a t b : string) :
  allSpace a = true -> isTerm t -> allSpace b = true ->
  TrimSpace ((a +:+ t) +:+ b) = t.
Proof.
  intros Ha Ht Hb.
  destruct (proj1 (Forall_forall _ _) terms_keep_their_ends t Ht)
    as [Hleft Hright].
  unfold TrimSpace, trimRight.
  rewrite StrFacts.app_assoc, (trimLeft_spaces a _ Ha), Hleft.
  rewrite rev_append, trimLeftRev_spaces by (rewrite allSpace_rev; exact Hb).
  rewrite Hright. apply rev_involutive.
Qed.

(** *** The pieces of an expression *)

Lemma stripFrom_spaces (w : string) : forall cur u,
  allSpace w = true ->
  stripFrom cur 0 (w +:+ u) = stripFrom (cur +:+ w) 0 u.
Proof.
  induction w as [|c w IH]; intros cur u Hw.
  - rewrite StrFacts.app_nil_l, StrFacts.app_nil_r. reflexivity.
  - cbn [allSpace] in Hw. apply andb_true_iff in Hw as [Hc Hw].
    destruct (isSpace_no_conjunction c (w +:+ u) Hc) as [Hand Hor].
    rewrite StrFacts.app_cons. cbn [stripFrom]. rewrite Hand, Hor.
    rewrite IH by exact Hw. rewrite StrFacts.app_assoc. reflexivity.
Qed.

(** Cutting the conjunctions out of an expression leaves each term with the
    white space that stood around it; trimming gives the terms back. *)
Lemma trimmed_pieces (rest : list (separator * string)) : forall cur t,
  allSpace cur = true -> isTerm t -> wellFormed rest ->
  map TrimSpace (stripFrom cur 0 (t +:+ expressionTail rest))
  = t :: map snd rest.
Proof.
  induction rest as [|[sp t'] rest IH]; intros cur t Hcur Ht Hrest.
  - cbn [expressionTail map].
    rewrite StripFacts.stripFrom_past_term by (apply isTerm_sepFree; exact Ht).
    cbn [stripFrom map].
    rewrite <- (StrFacts.app_nil_r (cur +:+ t)).
    rewrite TrimSpace_term_in_spaces by (assumption || reflexivity).
    reflexivity.
  - apply Forall_cons in Hrest as [[[Hbefore Hafter] Ht'] Hrest].
    cbn [fst snd] in Hbefore, Hafter, Ht'.
    cbn [expressionTail]. unfold separatorString.
    rewrite StripFacts.stripFrom_past_term by (apply isTerm_sepFree; exact Ht).
    rewrite !StrFacts.app_assoc.
    rewrite stripFrom_spaces by exact Hbefore.
    rewrite StripFacts.stripFrom_word.
    rewrite stripFrom_spaces by exact Hafter.
    rewrite StrFacts.app_nil_l.
    cbn [map]. rewrite (IH (after sp) t' Hafter Ht' Hrest).
    rewrite TrimSpace_term_in_spaces by assumption.
    reflexivity.
Qed.

(** C6 as stated fails: the validator accepts "UserPresence And Watch" and
    returns the terms "UserPresence" and "Watch", while stripping the
    conjunction from that string leaves "UserPresence " and " Watch", each
    with the blank that stood next to the conjunction. *)
Lemma stripped_pieces_keep_blanks :
  validateAccessControls (withAccessControl "UserPresence And Watch")
  = Ok ["UserPresence"; "Watch"] /\
  stripConjunctions "UserPresence And Watch" = ["UserPresence "; " Watch"] /\
  stripConjunctions "UserPresence And Watch" <> ["UserPresence"; "Watch"].
Proof.
  split; [vm_compute; reflexivity|].
  split; [vm_compute; reflexivity|].
  vm_compute. discriminate.
Qed.

(** C6, as the validator has it: for every string that the validator
    accepts, stripping the conjunctions from the string and trimming the
    white space left around each piece gives the very list of terms that
    the validator returns, element for element and in order. *)
Theorem round_trip_after_trimming (a : AwsVault) (out : list string) :
  validateAccessControls a = Ok out ->
  map TrimSpace (stripConjunctions (accessControl a)) = out.
Proof.
  intros Hv.
  destruct (ValidatorProps.validate_Ok_inv a out Hv)
    as (t & rest & Ht & Hrest & Ha & _ & ->).
  rewrite Ha. apply trimmed_pieces; [reflexivity|assumption..].
Qed.

Lemma round_trip_after_trimming_witness :
  map TrimSpace (stripConjunctions "UserPresence And  Watch Or DevicePasscode")
  = ["UserPresence"; "Watch"; "DevicePasscode"].
Proof.
  apply (round_trip_after_trimming
           (withAccessControl "UserPresence And  Watch Or DevicePasscode")).
  vm_compute. reflexivity.
Defined.

End RoundTrip.

(** ** The hooks and methods of cli/global.go *)

Module GlobalsProps.

Import Design Globals GlobalsTerms.

Ltac settle :=
  repeat split; intros;
  repeat match goal with
         | H : exists _, _ |- _ => destruct H
         | H : _ \/ _ |- _ => destruct H
         | H : _ /\ _ |- _ => destruct H
         end;
  try discriminate; try congruence; try tauto; eauto.

Ltac string_eq x y Hsame Hdiff :=
  destruct (String.eqb x y) eqn:Hsame;
  [apply String.eqb_eq in Hsame|apply String.eqb_neq in Hsame; rename Hsame into Hdiff].

Lemma rangePrompts_elem (promptsAvailable : list string) (driver : string) :
  rangePrompts promptsAvailable driver = true <-> driver ∈ promptsAvailable.
Proof.
  induction promptsAvailable as [|v rest IH]; simpl.
  - split; [discriminate|]. intros H. inversion H.
  - rewrite elem_of_cons. string_eq v driver Hsame Hne; [subst|].
    + split; auto.
    + rewrite IH. split; [auto|]. intros [->|H]; [congruence|exact H].
Qed.

(** X11: [StringInSlice] answers whether the string is an element of the
    slice. *)
Theorem StringInSlice_elem (str : string) (l : list string) :
  StringInSlice str l = true <-> str ∈ l.
Proof.
  induction l as [|v rest IH]; simpl.
  - split; [discriminate|]. intros H. inversion H.
  - rewrite elem_of_cons. string_eq v str Hsame Hne; [subst|].
    + split; auto.
    + rewrite IH. split; [auto|]. intros [->|H]; [congruence|exact H].
Qed.

(** X7: the value of [--prompt] is valid exactly when it is empty or it is an
    available driver other than "pass"; "pass" ends the process, also when
    it is listed as available; anything else is an error that quotes the
    value. *)
Theorem validatePrompt_verdict (promptsAvailable : list string) (a : AwsVault) :
  (validatePrompt promptsAvailable a = Valid <->
   promptDriver a = "" \/
   (promptDriver a <> "pass" /\ promptDriver a ∈ promptsAvailable)) /\
  (validatePrompt promptsAvailable a = Fatal passRemoved <->
   promptDriver a = "pass") /\
  ((exists e, validatePrompt promptsAvailable a = Invalid e) <->
   promptDriver a <> "" /\ promptDriver a <> "pass" /\
   promptDriver a ∉ promptsAvailable).
Proof.
  unfold validatePrompt.
  string_eq (promptDriver a) "" Hempty Hne.
  { rewrite Hempty. settle. }
  string_eq (promptDriver a) "pass" Hpass Hnp.
  { settle. }
  destruct (rangePrompts promptsAvailable (promptDriver a)) eqn:Hr.
  - apply rangePrompts_elem in Hr. settle.
  - assert (Hnot : promptDriver a ∉ promptsAvailable).
    { intros H. apply rangePrompts_elem in H. congruence. }
    settle.
Qed.

Lemma rangeDrivers_find (available : list string) :
  rangeDrivers available "terminal"
  = default "terminal" (List.find notTerminal available).
Proof.
  induction available as [|driver rest IH]; [reflexivity|].
  simpl. unfold notTerminal at 1.
  string_eq driver "terminal" Hsame Hne; [subst|]; simpl.
  - exact IH.
  - reflexivity.
Qed.

(** X8: with no driver set, [PromptDriver] chooses "terminal" when standard
    output is a terminal and the caller does not ask to avoid it; otherwise
    it chooses the first available driver that is not "terminal", and
    "terminal" when there is none.  The choice is stored in the vault. *)
Theorem PromptDriver_choice
    (fd : stdoutKind) (available : list string) (avoidTerminalPrompt : bool)
    (a : AwsVault) :
  promptDriver a = "" ->
  let driver :=
    if isATerminal fd && negb avoidTerminalPrompt then "terminal"
    else default "terminal" (List.find notTerminal available) in
  PromptDriver fd available avoidTerminalPrompt a
  = (driver, withPromptDriver driver a, "Using prompt driver: " +:+ driver).
Proof.
  intros E. unfold PromptDriver. rewrite E. simpl.
  destruct (isATerminal fd), avoidTerminalPrompt; simpl;
    rewrite ?rangeDrivers_find; reflexivity.
Qed.

(** X9: when terminal prompts are to be avoided, or standard output is no
    terminal, and some available driver is not "terminal", the driver that
    [PromptDriver] chooses is an available one that is not "terminal". *)
Theorem PromptDriver_avoids_terminal
    (fd : stdoutKind) (available : list string) (avoidTerminalPrompt : bool)
    (a : AwsVault) (other : string) :
  promptDriver a = "" ->
  isATerminal fd = false \/ avoidTerminalPrompt = true ->
  other ∈ available -> other <> "terminal" ->
  let driver := fst (fst (PromptDriver fd available avoidTerminalPrompt a)) in
  driver ∈ available /\ driver <> "terminal".
Proof.
  intros E Havoid Hin Hother. simpl. unfold PromptDriver. rewrite E. simpl.
  assert (Hc : negb (isATerminal fd) || avoidTerminalPrompt = true).
  { destruct Havoid as [-> | ->]; [reflexivity|apply orb_true_r]. }
  rewrite Hc. simpl. rewrite rangeDrivers_find.
  destruct (List.find notTerminal available) as [d|] eqn:Hf; simpl.
  - apply find_some in Hf as [Hd Hnt]. split.
    + apply list_elem_of_In. exact Hd.
    + unfold notTerminal in Hnt. apply negb_true_iff in Hnt.
      apply String.eqb_neq in Hnt. exact Hnt.
  - exfalso. apply list_elem_of_In in Hin.
    pose proof (find_none _ _ Hf other Hin) as Hn.
    unfold notTerminal in Hn. apply negb_false_iff, String.eqb_eq in Hn.
    contradiction.
Qed.

(** X10: a driver, once chosen or set, stays: whenever a call of [PromptDriver]
    returns a driver that is not the empty string, every later call returns
    the same driver and leaves the vault as it is, whatever standard output
    has become and whatever the caller asks. *)
Theorem PromptDriver_sticky
    (fd fd' : stdoutKind) (available available' : list string)
    (avoid avoid' : bool) (a : AwsVault) :
  let driver := fst (fst (PromptDriver fd available avoid a)) in
  let a' := snd (fst (PromptDriver fd available avoid a)) in
  driver <> "" ->
  PromptDriver fd' available' avoid' a'
  = (driver, a', "Using prompt driver: " +:+ driver).
Proof.
  unfold PromptDriver at 1 2. cbn [fst snd].
  set (a' := if String.eqb (promptDriver a) "" then _ else a).
  intros Hne. unfold PromptDriver.
  string_eq (promptDriver a') "" Hsame Hdiff; [contradiction|].
  reflexivity.
Qed.

Lemma PromptDriver_choice_witness :
  PromptDriver aTerminal ["terminal"; "osascript"; "ykman"] true
    (withAccessControl "UserPresence")
  = ("osascript",
     withPromptDriver "osascript" (withAccessControl "UserPresence"),
     "Using prompt driver: osascript").
Proof.
  apply (PromptDriver_choice aTerminal ["terminal"; "osascript"; "ykman"] true
           (withAccessControl "UserPresence")).
  reflexivity.
Defined.

Lemma PromptDriver_avoids_terminal_witness :
  let driver :=
    fst (fst (PromptDriver noTerminal ["terminal"; "ykman"] false
                (withAccessControl "UserPresence"))) in
  driver ∈ ["terminal"; "ykman"] /\ driver <> "terminal".
Proof.
  apply (PromptDriver_avoids_terminal noTerminal ["terminal"; "ykman"] false
           (withAccessControl "UserPresence") "ykman").
  - reflexivity.
  - left. reflexivity.
  - right. left.
  - discriminate.
Defined.

Lemma PromptDriver_sticky_witness :
  PromptDriver aTerminal ["terminal"] false
    (withPromptDriver "ykman" (withAccessControl "UserPresence"))
  = ("ykman", withPromptDriver "ykman" (withAccessControl "UserPresence"),
     "Using prompt driver: ykman").
Proof.
  apply (PromptDriver_sticky noTerminal aTerminal ["terminal"; "ykman"]
           ["terminal"] false false (withAccessControl "UserPresence")).
  discriminate.
Defined.

Section Keyring.

Context {K err : Type}.

(** X12: [Keyring] opens a keyring once: when the vault holds none and
    [keyring.Open] returns one without an error, [Keyring] calls [Open]
    once, with the configuration of the vault restricted to the selected
    backend; it returns that keyring and keeps it, and every later call
    returns it again without calling [Open]. *)
Theorem Keyring_opens_once
    (Open Open' : Config -> option K * option err) (a : Vault K) (k : K) :
  keyringImpl a = None ->
  Open (opening a) = (Some k, None) ->
  let a' := {| settings := settings a; KeyringConfig := opening a;
               keyringImpl := Some k |} in
  Keyring Open a = ((Some k, None), a', [opening a]) /\
  Keyring Open' a' = ((Some k, None), a', []).
Proof.
  intros Hnone Hopen. unfold Keyring at 1. rewrite Hnone.
  fold (opening a). rewrite Hopen. split; reflexivity.
Qed.

Lemma opening_again (a : Vault K) (impl : option K) :
  opening {| settings := settings a; KeyringConfig := opening a;
             keyringImpl := impl |} = opening a.
Proof.
  unfold opening. simpl.
  destruct (negb (String.eqb (KeyringBackend (settings a)) "")); reflexivity.
Qed.

(** X13: when [keyring.Open] fails and returns no keyring, [Keyring] returns the
    error and holds no keyring, so that the next call opens again, with the
    same configuration: the restriction to the selected backend stays in
    the vault. *)
Theorem Keyring_failure_not_cached
    (Open Open' : Config -> option K * option err) (a : Vault K) (e : err) :
  keyringImpl a = None ->
  Open (opening a) = (None, Some e) ->
  let a' := {| settings := settings a; KeyringConfig := opening a;
               keyringImpl := None |} in
  Keyring Open a = ((None, Some e), a', [opening a]) /\
  snd (Keyring Open' a') = [opening a].
Proof.
  intros Hnone Hopen. unfold Keyring at 1. rewrite Hnone.
  fold (opening a). rewrite Hopen. split; [reflexivity|].
  pose proof (opening_again a None) as Hagain.
  unfold Keyring. unfold opening at 1 in Hagain.
  cbn [keyringImpl settings KeyringConfig] in Hagain |- *.
  rewrite Hagain.
  destruct (Open' (opening a)) as [impl [e'|]]; reflexivity.
Qed.

End Keyring.

Lemma Keyring_opens_once_witness :
  let a' := {| settings := settings fileVault; KeyringConfig := opening fileVault;
               keyringImpl := Some "file keyring" |} in
  Keyring openFile fileVault
    = ((Some "file keyring", None), a', [opening fileVault]) /\
  Keyring openNothing a' = ((Some "file keyring", None), a', []).
Proof.
  apply (Keyring_opens_once openFile openNothing fileVault "file keyring");
    reflexivity.
Defined.

Lemma Keyring_failure_not_cached_witness :
  let a' := {| settings := settings fileVault; KeyringConfig := opening fileVault;
               keyringImpl := None |} in
  Keyring openNothing fileVault
    = ((None, Some "no available implementation"), a', [opening fileVault]) /\
  snd (Keyring openFile a') = [opening fileVault].
Proof.
  apply (Keyring_failure_not_cached openNothing openFile fileVault
           "no available implementation"); reflexivity.
Defined.

End GlobalsProps.

(** ** The hook that validates the access-control settings *)

Module SettingsProps.

Import Design Globals ValidatorProps.

Lemma validate_UserPresence (a : AwsVault) :
  accessControl a = "UserPresence" ->
  validateAccessControls a = Ok ["UserPresence"].
Proof.
  intros E. unfold validateAccessControls. rewrite E. vm_compute. reflexivity.
Qed.

Section Settings.

Context {K : Type}.

(** X5: with a backend other than "dp-keychain", the hook accepts the settings
    exactly when the access constraint is empty and the access control is
    "UserPresence", and it then stores the single term "UserPresence";
    otherwise it fails with the not-supported error, before it logs
    anything. *)
Theorem other_backends_take_default_only (a : Vault K) :
  KeyringBackend (settings a) <> "dp-keychain" ->
  (KeychainAccessConstraint (KeyringConfig a) = "" /\
   accessControl (settings a) = "UserPresence" /\
   fst (validateAccessSettings a)
   = Ok {| settings := settings a;
           KeyringConfig :=
             withKeychainAccessControl ["UserPresence"] (KeyringConfig a);
           keyringImpl := keyringImpl a |}) \/
  ((KeychainAccessConstraint (KeyringConfig a) <> "" \/
    accessControl (settings a) <> "UserPresence") /\
   validateAccessSettings a
   = (Err (NotSupported (KeyringBackend (settings a))), [])).
Proof.
  intros Hb. apply String.eqb_neq in Hb. unfold validateAccessSettings.
  rewrite Hb. cbn [negb andb].
  destruct (String.eqb (KeychainAccessConstraint (KeyringConfig a)) "") eqn:Hc;
    cbn [negb].
  - apply String.eqb_eq in Hc.
    destruct (String.eqb (accessControl (settings a)) "UserPresence") eqn:Ha;
      cbn [negb].
    + apply String.eqb_eq in Ha. left.
      rewrite (validate_UserPresence _ Ha). auto.
    + apply String.eqb_neq in Ha. right. auto.
  - apply String.eqb_neq in Hc. right. auto.
Qed.

(** X6: when the hook accepts, it has stored in the configuration the list that
    the validator returned, which is not empty, holds terms of the
    vocabulary only, each once, six at most; it has changed nothing else in
    the vault; and the backend is "dp-keychain" or the settings are the
    defaults. *)
Theorem accepted_settings (a a' : Vault K) :
  fst (validateAccessSettings a) = Ok a' ->
  exists terms,
    validateAccessControls (settings a) = Ok terms /\
    a' = {| settings := settings a;
            KeyringConfig := withKeychainAccessControl terms (KeyringConfig a);
            keyringImpl := keyringImpl a |} /\
    KeychainAccessControl (KeyringConfig a') = terms /\
    terms <> [] /\ Forall isTerm terms /\ NoDup terms /\
    length terms <= length accessControlOptions /\
    (KeyringBackend (settings a) = "dp-keychain" \/
     (KeychainAccessConstraint (KeyringConfig a) = "" /\
      accessControl (settings a) = "UserPresence")).
Proof.
  unfold validateAccessSettings.
  destruct (String.eqb (KeyringBackend (settings a)) "dp-keychain") eqn:Hb;
    cbn [negb andb].
  - apply String.eqb_eq in Hb.
    destruct (validateAccessControls (settings a)) as [terms|e] eqn:Hv;
      [|discriminate].
    intros [= <-]. exists terms.
    apply validate_Ok_inv in Hv as (t & rest & Ht & Hrest & _ & Hnd & E).
    destruct (valid_terms terms) as (H1 & H2 & H3 & H4);
      [exists t, rest; auto|].
    repeat split; auto.
  - destruct (String.eqb (KeychainAccessConstraint (KeyringConfig a)) "") eqn:Hc;
      cbn [negb]; [|discriminate].
    destruct (String.eqb (accessControl (settings a)) "UserPresence") eqn:Ha;
      cbn [negb]; [|discriminate].
    apply String.eqb_eq in Hc, Ha.
    destruct (validateAccessControls (settings a)) as [terms|e] eqn:Hv;
      [|discriminate].
    intros [= <-]. exists terms.
    apply validate_Ok_inv in Hv as (t & rest & Ht & Hrest & _ & Hnd & E).
    destruct (valid_terms terms) as (H1 & H2 & H3 & H4);
      [exists t, rest; auto|].
    repeat split; auto.
Qed.

End Settings.

Import GlobalsTerms.

Lemma other_backends_take_default_only_witness :
  (KeychainAccessConstraint (KeyringConfig fileVault) = "" /\
   accessControl (settings fileVault) = "UserPresence" /\
   fst (validateAccessSettings fileVault)
   = Ok {| settings := settings fileVault;
           KeyringConfig :=
             withKeychainAccessControl ["UserPresence"] (KeyringConfig fileVault);
           keyringImpl := keyringImpl fileVault |}) \/
  ((KeychainAccessConstraint (KeyringConfig fileVault) <> "" \/
    accessControl (settings fileVault) <> "UserPresence") /\
   validateAccessSettings fileVault
   = (Err (NotSupported (KeyringBackend (settings fileVault))), [])).
Proof.
  apply (other_backends_take_default_only fileVault). discriminate.
Defined.

Lemma accepted_settings_witness :
  exists terms,
    validateAccessControls (settings fileVault) = Ok terms /\
    {| settings := settings fileVault;
       KeyringConfig :=
         withKeychainAccessControl ["UserPresence"] (KeyringConfig fileVault);
       keyringImpl := keyringImpl fileVault |}
    = {| settings := settings fileVault;
         KeyringConfig := withKeychainAccessControl terms (KeyringConfig fileVault);
         keyringImpl := keyringImpl fileVault |} /\
    KeychainAccessControl
      (withKeychainAccessControl ["UserPresence"] (KeyringConfig fileVault))
    = terms /\
    terms <> [] /\ Forall isTerm terms /\ NoDup terms /\
    length terms <= length accessControlOptions /\
    (KeyringBackend (settings fileVault) = "dp-keychain" \/
     (KeychainAccessConstraint (KeyringConfig fileVault) = "" /\
      accessControl (settings fileVault) = "UserPresence")).
Proof.
  apply (accepted_settings fileVault
           {| settings := settings fileVault;
              KeyringConfig :=
                withKeychainAccessControl ["UserPresence"] (KeyringConfig fileVault);
              keyringImpl := keyringImpl fileVault |}).
  vm_compute. reflexivity.
Defined.

End SettingsProps.

(** ** The shape of a run of the copy command *)

Module CopyShape.

Import Copy Design Trace Plan Loops CopyFacts.

Section Generic.

Context {payload err K : Type} `{SecretStore payload err K}.

#[local] Abbreviation world := (Copy.world payload K).
#[local] Abbreviation M := (@Copy.M payload err K).

Lemma transferCalls_app (d1 d2 : list (@transferred payload)) :
  transferCalls (d1 ++ d2) = transferCalls d1 ++ transferCalls d2.
Proof. apply flat_map_app. Qed.

Lemma written_app (d : K) (d1 d2 : list transferred) :
  written d (d1 ++ d2) = written (written d d1) d2.
Proof. apply fold_left_app. Qed.

Lemma performs_ret : performs [] (ret tt : M unit).
Proof.
  intros w. exists [], []. simpl. rewrite app_nil_r.
  repeat split; try constructor. reflexivity.
Qed.

Lemma performs_logPrintf line : performs [] (logPrintf line : M unit).
Proof.
  intros w. exists [], []. simpl. rewrite app_nil_r.
  repeat split; try constructor. reflexivity.
Qed.

Lemma ending_more source destination todo more done r tail :
  ending source destination todo done r tail ->
  (exists e, r = Err e) ->
  ending source destination (todo ++ more) done r tail.
Proof.
  intros He [e0 Hr]. destruct He as [E|ns key e rest E Hg|before ns key v e rest E1 E2 Hs].
  - discriminate.
  - apply (ending_read _ _ _ _ ns key e (rest ++ more)); [|exact Hg].
    rewrite E, <- app_assoc. reflexivity.
  - apply (ending_write _ _ _ _ before ns key v e (rest ++ more)); [exact E1| |exact Hs].
    rewrite E2, <- app_assoc. reflexivity.
Qed.

Lemma performs_bind todo1 todo2 (m1 m2 : M unit) :
  performs todo1 m1 -> performs todo2 m2 ->
  performs (todo1 ++ todo2) (bind m1 (fun _ => m2)).
Proof.
  intros H1 H2 w.
  destruct (H1 w) as (d1 & t1 & Hs1 & Ho1 & Hc1 & Hd1 & Hr1 & He1).
  unfold bind. destruct (m1 w) as [[u|e] w1] eqn:E; cbn [fst snd] in *.
  - inversion He1 as [Hdone| |]; subst.
    destruct (H2 w1) as (d2 & t2 & Hs2 & Ho2 & Hc2 & Hd2 & Hr2 & He2).
    exists (d1 ++ d2), t2.
    rewrite Hs2, Ho2, Hc2, Hd2, Hs1, Ho1, Hc1, Hd1.
    rewrite transferCalls_app, written_app, app_nil_r, !app_assoc.
    repeat split.
    + apply Forall_app. split; [exact Hr1|]. rewrite <- Hs1. exact Hr2.
    + rewrite Hs1, Hd1 in He2.
      destruct He2 as [E2|ns key e rest E2 Hg|before ns key v e rest E2 E3 Hw].
      * apply ending_completed. rewrite map_app, E2. reflexivity.
      * apply (ending_read _ _ _ _ ns key e rest); [|exact Hg].
        rewrite map_app, E2, <- app_assoc. reflexivity.
      * apply (ending_write _ _ _ _ (d1 ++ before) ns key v e rest).
        -- rewrite E2, app_assoc. reflexivity.
        -- rewrite map_app, E3, <- app_assoc. reflexivity.
        -- rewrite written_app. exact Hw.
  - exists d1, t1. repeat split; try assumption.
    apply ending_more; [exact He1|eauto].
Qed.

Lemma performs_round ns line handler name :
  quiet handler -> performs [(ns, name)] (round ns line handler name).
Proof.
  intros Hq w. unfold round, bind, get, set, logPrintf, onError.
  cbn [keyring kind store called setStore src dst calls stdout logged fst snd].
  destruct (Get ns name (src w)) as [v|e] eqn:Hg; cbn [fst snd].
  - destruct (Set_ ns name v (dst w)) as [k' [e|]] eqn:Hs; cbn [fst snd].
    + destruct (Hq name e
                  {| src := src w; dst := k';
                     calls := (calls w ++ [(Source, OpGet ns name)])
                              ++ [(Destination, OpSet ns name v)];
                     stdout := stdout w;
                     logged := logged w ++ [line name] |})
        as (Q1 & Q2 & Q3 & Q4).
      cbn [src dst calls stdout] in Q1, Q2, Q3, Q4.
      exists [(ns, name, v)], []. rewrite Q1, Q2, Q3, Q4.
      unfold written, transferCalls. simpl. rewrite Hs.
      repeat split.
      * rewrite <- app_assoc. reflexivity.
      * constructor; [exact Hg|constructor].
      * apply (ending_write _ _ _ _ [] ns name v e []); [reflexivity..|].
        simpl. rewrite Hs. reflexivity.
    + exists [(ns, name, v)], []. unfold written, transferCalls. simpl.
      rewrite Hs. repeat split.
      * rewrite <- app_assoc. reflexivity.
      * constructor; [exact Hg|constructor].
      * apply ending_completed. reflexivity.
  - exists [], [(Source, OpGet ns name)]. repeat split.
    + constructor.
    + apply (ending_read _ _ _ _ ns name e []); [reflexivity|exact Hg].
Qed.

Lemma performs_forRange ns (body : string -> M unit) names :
  (forall name, performs [(ns, name)] (body name)) ->
  performs (map (pair ns) names) (forRange names body).
Proof.
  intros Hb. induction names as [|name names IH]; simpl.
  - apply performs_ret.
  - change ((ns, name) :: map (pair ns) names)
      with ([(ns, name)] ++ map (pair ns) names).
    apply performs_bind; [apply Hb|exact IH].
Qed.

Lemma performs_ext todo (m m' : M unit) :
  (forall w, m w = m' w) -> performs todo m -> performs todo m'.
Proof.
  intros E Hm w. rewrite <- E. apply Hm.
Qed.

Lemma quiet_silent : quiet (silent : string -> err -> M unit).
Proof. intros name e w. repeat split. Qed.

Lemma quiet_logPrintf (line : string -> err -> string) :
  quiet (fun name e => logPrintf (line name e) : M unit).
Proof. intros name e w. repeat split. Qed.

Lemma plain_round ns name (w : world) :
  bind (get {| keyring := Source; kind := ns |} name) (fun v =>
    bind (logPrintf ("Copying " +:+ name)) (fun _ =>
    set {| keyring := Destination; kind := ns |} name v)) w
  = round ns (fun name => "Copying " +:+ name) silent name w.
Proof.
  unfold round, bind, get, set, logPrintf, onError, silent, ret.
  cbn [keyring kind store called setStore src dst calls stdout logged fst snd].
  destruct (Get ns name (src w)) as [v|e]; [|reflexivity].
  destruct (Set_ ns name v (dst w)) as [k' [e|]]; reflexivity.
Qed.

Lemma performs_credentialLoop names :
  performs (map (pair Credential) names) (credentialLoop names).
Proof.
  apply performs_forRange. intros name.
  apply (performs_ext _ (round Credential (fun name => "Copying " +:+ name) silent name)).
  - intros w. symmetry. apply plain_round.
  - apply performs_round, quiet_silent.
Qed.

Lemma performs_sessionLoop names :
  performs (map (pair Session) names) (sessionLoop names).
Proof.
  apply performs_forRange. intros name.
  apply (performs_ext _ (round Session (fun name => "Copying " +:+ name) silent name)).
  - intros w. symmetry. apply plain_round.
  - apply performs_round, quiet_silent.
Qed.

Lemma performs_oidcTokenLoop names :
  performs (map (pair OIDCToken) names) (oidcTokenLoop names).
Proof.
  apply performs_forRange. intros name.
  apply (performs_round OIDCToken (fun name => "Copying " +:+ name)
           (fun name e => logPrintf ("Error copying " +:+ name +:+ ": "
                                     +:+ errorString e))).
  apply (quiet_logPrintf (fun name e => "Error copying " +:+ name +:+ ": "
                                        +:+ errorString e)).
Qed.

Lemma performs_loops l1 l2 l3 : performs (plan l1 l2 l3) (loops l1 l2 l3).
Proof.
  unfold loops.
  change (plan l1 l2 l3)
    with ([] ++ [] ++ [] ++ map (pair Credential) l1
          ++ map (pair OIDCToken) l2 ++ map (pair Session) l3).
  repeat (apply performs_bind; [apply performs_logPrintf|]).
  apply performs_bind; [apply performs_credentialLoop|].
  apply performs_bind; [apply performs_oidcTokenLoop|].
  apply performs_sessionLoop.
Qed.

(** After the loops the command prints the counts, if no loop failed. *)
Lemma transfer_loops l1 l2 l3 (w : world) :
  transfer l1 l2 l3 w =
  match loops l1 l2 l3 w with
  | (Ok _, w') =>
      (Ok tt,
       {| src := src w'; dst := dst w'; calls := calls w';
          stdout := stdout w'
                    ++ [copiedMessage (length l1) (length l2) (length l3)];
          logged := logged w' |})
  | (Err e, w') => (Err e, w')
  end.
Proof.
  unfold transfer, loops.
  fold (credentialLoop l1) (oidcTokenLoop l2) (sessionLoop l3).
  unfold bind, logPrintf, fmtPrintf, ret. cbn [src dst calls stdout logged].
  destruct (credentialLoop l1 _) as [[[]|e1] w1]; [|reflexivity].
  destruct (oidcTokenLoop l2 w1) as [[[]|e2] w2]; [|reflexivity].
  destruct (sessionLoop l3 w2) as [[[]|e3] w3]; reflexivity.
Qed.

(** A run in which the three enumerations succeed. *)
Lemma run_shape input source destination l1 l2 l3 :
  Keys Credential source = Ok l1 ->
  Keys OIDCToken source = Ok l2 ->
  Keys Session source = Ok l3 ->
  exists done tail,
    src (snd (run input source destination)) = source /\
    calls (snd (run input source destination))
      = enumeration ++ transferCalls done ++ tail /\
    dst (snd (run input source destination)) = written destination done /\
    Forall (wasRead source) done /\
    ending source destination (plan l1 l2 l3) done
      (fst (run input source destination)) tail /\
    stdout (snd (run input source destination))
      = match fst (run input source destination) with
        | Ok _ => [copiedMessage (length l1) (length l2) (length l3)]
        | Err _ => []
        end.
Proof.
  intros H1 H2 H3. rewrite run_unfold, H1, H2, H3, transfer_loops.
  destruct (performs_loops l1 l2 l3 (enumerated 3 source destination))
    as (done & tail & Hs & Ho & Hc & Hd & Hr & He).
  exists done, tail.
  destruct (loops l1 l2 l3 (enumerated 3 source destination)) as [[[]|e] w'];
    cbn [fst snd src dst calls stdout] in *;
    rewrite Ho; repeat split; assumption.
Qed.

Lemma ending_tail source destination todo done r tail :
  ending source destination todo done r tail ->
  tail = [] \/ exists ns key, tail = [(Source, OpGet ns key)].
Proof. destruct 1; eauto. Qed.

(** In the calls of transfers, a write follows the read of its key. *)
Lemma transferCalls_lookup source (done : list transferred) tail :
  Forall (wasRead source) done ->
  (tail = [] \/ exists ns key, tail = [(Source, OpGet ns key)]) ->
  forall i ns key v,
    (transferCalls done ++ tail) !! i = Some (Destination, OpSet ns key v) ->
    exists j, i = S j /\
      (transferCalls done ++ tail) !! j = Some (Source, OpGet ns key) /\
      Get ns key source = Ok v.
Proof.
  intros Hr Htail. induction Hr as [|[[n k] x] done Hx Hr IH]; intros i ns key v Hi.
  - simpl in Hi. destruct Htail as [->|(n & k & ->)].
    + destruct i; discriminate.
    + destruct i as [|[|i]]; discriminate.
  - unfold wasRead in Hx. simpl in Hx.
    change (transferCalls (((n, k), x) :: done) ++ tail)
      with ((Source, OpGet n k) :: (Destination, OpSet n k x)
            :: (transferCalls done ++ tail)) in *.
    destruct i as [|[|i]].
    + discriminate.
    + simpl in Hi. injection Hi as -> -> ->.
      exists 0. repeat split. exact Hx.
    + simpl in Hi. destruct (IH i ns key v Hi) as (j & -> & Hj & Hg).
      exists (S (S j)). repeat split; assumption.
Qed.

(** The calls of a run: the enumerations made, and then, if all three were
    made, the calls of transfers. *)
Lemma run_calls input source destination :
  (exists n, calls (snd (run input source destination)) = take n enumeration) \/
  (exists done tail,
     calls (snd (run input source destination))
       = enumeration ++ transferCalls done ++ tail /\
     Forall (wasRead source) done /\
     (tail = [] \/ exists ns key, tail = [(Source, OpGet ns key)])).
Proof.
  destruct (Keys Credential source) as [l1|e] eqn:H1;
    [|left; exists 1; rewrite run_unfold, H1; reflexivity].
  destruct (Keys OIDCToken source) as [l2|e] eqn:H2;
    [|left; exists 2; rewrite run_unfold, H1, H2; reflexivity].
  destruct (Keys Session source) as [l3|e] eqn:H3;
    [|left; exists 3; rewrite run_unfold, H1, H2, H3; reflexivity].
  right.
  destruct (run_shape input source destination l1 l2 l3 H1 H2 H3)
    as (done & tail & _ & Hc & _ & Hr & He & _).
  exists done, tail. repeat split; [exact Hc|exact Hr|].
  exact (ending_tail _ _ _ _ _ _ He).
Qed.

End Generic.

End CopyShape.

(** ** More about the copy command: what a run does, call by call *)

Module CopyProps.

Import Copy Design Trace Plan Loops CopyFacts CopyShape.

Section Generic.

Context {payload err K : Type} `{SecretStore payload err K}.

(** X14: when the command returns without an error, the three enumerations
    succeeded and the calls that followed are exactly the transfers of the
    enumerated keys: for each key, in the order Credential, OIDCToken,
    Session and within a namespace in the order of its enumeration, one read
    from the source and one write to the destination of the payload read,
    under the same key.  The destination is what these writes made of it,
    the source is unchanged, and the one line printed carries the numbers of
    keys enumerated, which are the numbers of items written. *)
Theorem completed_run (input : CopyCommandInput) (source destination : K) :
  fst (run input source destination) = Ok tt ->
  exists l1 l2 l3 done,
    Keys Credential source = Ok l1 /\
    Keys OIDCToken source = Ok l2 /\
    Keys Session source = Ok l3 /\
    map target done = plan l1 l2 l3 /\
    Forall (wasRead source) done /\
    calls (snd (run input source destination))
      = enumeration ++ transferCalls done /\
    dst (snd (run input source destination)) = written destination done /\
    src (snd (run input source destination)) = source /\
    stdout (snd (run input source destination))
      = [copiedMessage (length l1) (length l2) (length l3)].
Proof.
  intros Hok.
  destruct (Keys Credential source) as [l1|e] eqn:H1;
    [|rewrite run_unfold, H1 in Hok; discriminate].
  destruct (Keys OIDCToken source) as [l2|e] eqn:H2;
    [|rewrite run_unfold, H1, H2 in Hok; discriminate].
  destruct (Keys Session source) as [l3|e] eqn:H3;
    [|rewrite run_unfold, H1, H2, H3 in Hok; discriminate].
  destruct (run_shape input source destination l1 l2 l3 H1 H2 H3)
    as (done & tail & Hs & Hc & Hd & Hr & He & Ho).
  rewrite Hok in He, Ho. inversion He as [Hdone| |]; subst.
  exists l1, l2, l3, done. rewrite app_nil_r in Hc. repeat split; assumption.
Qed.

(** X15: whatever the outcome, every write to the destination comes right after
    the read of the same key of the same namespace from the source, and
    writes the payload that this read returned. *)
Theorem writes_follow_reads (input : CopyCommandInput) (source destination : K)
    (i : nat) (ns : namespace) (key : string) (v : payload) :
  calls (snd (run input source destination)) !! i
    = Some (Destination, OpSet ns key v) ->
  exists j,
    i = S j /\
    calls (snd (run input source destination)) !! j
      = Some (Source, OpGet ns key) /\
    Get ns key source = Ok v.
Proof.
  intros Hi.
  destruct (run_calls input source destination)
    as [[n Hc]|(done & tail & Hc & Hr & Htail)]; rewrite Hc in Hi |- *.
  - exfalso. apply list_elem_of_lookup_2, elem_of_take in Hi as (j & Hj & _).
    apply list_elem_of_lookup_2 in Hj. unfold enumeration in Hj.
    repeat (apply elem_of_cons in Hj as [Hj|Hj]; [discriminate|]).
    inversion Hj.
  - destruct (decide (i < 3)) as [Hlt|Hge].
    + exfalso. rewrite lookup_app_l in Hi by exact Hlt.
      destruct i as [|[|[|i]]]; discriminate.
    + rewrite lookup_app_r in Hi by (simpl; lia). simpl length in Hi.
      destruct (transferCalls_lookup source done tail Hr Htail _ ns key v Hi)
        as (j & Hj & Hget & Hv).
      exists (3 + j). split; [lia|]. split; [|exact Hv].
      rewrite lookup_app_r by (simpl; lia). simpl length.
      replace (3 + j - 3) with j by lia. exact Hget.
Qed.

(** X16: the command stops at the first call that fails: when it returns an
    error, it has printed nothing, and its last call is the one that failed
    with that error, an enumeration or a read of the source or a write to
    the destination. *)
Theorem stops_at_first_failure
    (input : CopyCommandInput) (source destination : K) (e : err) :
  fst (run input source destination) = Err e ->
  stdout (snd (run input source destination)) = [] /\
  exists c,
    last (calls (snd (run input source destination))) = Some c /\
    failedWith source (dst (snd (run input source destination))) e c.
Proof.
  intros Herr.
  destruct (Keys Credential source) as [l1|e1] eqn:H1.
  2:{ rewrite run_unfold, H1 in Herr |- *. injection Herr as ->.
      split; [reflexivity|]. exists (Source, OpKeys Credential).
      split; [reflexivity|exact H1]. }
  destruct (Keys OIDCToken source) as [l2|e2] eqn:H2.
  2:{ rewrite run_unfold, H1, H2 in Herr |- *. injection Herr as ->.
      split; [reflexivity|]. exists (Source, OpKeys OIDCToken).
      split; [reflexivity|exact H2]. }
  destruct (Keys Session source) as [l3|e3] eqn:H3.
  2:{ rewrite run_unfold, H1, H2, H3 in Herr |- *. injection Herr as ->.
      split; [reflexivity|]. exists (Source, OpKeys Session).
      split; [reflexivity|exact H3]. }
  destruct (run_shape input source destination l1 l2 l3 H1 H2 H3)
    as (done & tail & Hs & Hc & Hd & Hr & He & Ho).
  rewrite Herr in He, Ho. split; [exact Ho|]. rewrite Hc, Hd.
  inversion He as [|ns key e0 rest E Hg|before ns key v e0 rest E1 E2 Hw]; subst.
  - exists (Source, OpGet ns key). split; [|exact Hg].
    rewrite !app_assoc. apply last_snoc.
  - exists (Destination, OpSet ns key v). split.
    + rewrite transferCalls_app, app_nil_r.
      change (transferCalls [(ns, key, v)])
        with ([(Source, OpGet ns key)] ++ [(Destination, OpSet ns key v)]).
      rewrite !app_assoc. apply last_snoc.
    + exists (written destination before). rewrite written_app. simpl.
      rewrite <- Hw. apply surjective_pairing.
Qed.

(** X17: the command only writes to the destination: it never enumerates it and
    never reads from it, whatever the outcome. *)
Theorem destination_only_written
    (input : CopyCommandInput) (source destination : K) :
  Forall (fun c => fst c = Destination -> isSet c)
    (calls (snd (run input source destination))).
Proof.
  rewrite run_unfold.
  destruct (Keys Credential source) as [l1|e]; [|repeat constructor; discriminate].
  destruct (Keys OIDCToken source) as [l2|e]; [|repeat constructor; discriminate].
  destruct (Keys Session source) as [l3|e]; [|repeat constructor; discriminate].
  destruct (transferring_transfer l1 l2 l3 (enumerated 3 source destination))
    as [_ (new & -> & Hn)].
  apply Forall_app. split; [repeat constructor; discriminate|].
  eapply Forall_impl; [exact Hn|].
  intros c [[Hs _]|[_ Hset]] Hd; [congruence|exact Hset].
Qed.

End Generic.

Import MemStore Scenario.

Lemma completed_run_witness :
  exists l1 l2 l3 done,
    Keys Credential (credentialsOnly [("a", "x")]) = Ok l1 /\
    Keys OIDCToken (credentialsOnly [("a", "x")]) = Ok l2 /\
    Keys Session (credentialsOnly [("a", "x")]) = Ok l3 /\
    map target done = plan l1 l2 l3 /\
    Forall (wasRead (credentialsOnly [("a", "x")])) done /\
    calls (snd (run anyInput (credentialsOnly [("a", "x")]) MemStore.empty))
      = enumeration ++ transferCalls done /\
    dst (snd (run anyInput (credentialsOnly [("a", "x")]) MemStore.empty))
      = written MemStore.empty done /\
    src (snd (run anyInput (credentialsOnly [("a", "x")]) MemStore.empty))
      = credentialsOnly [("a", "x")] /\
    stdout (snd (run anyInput (credentialsOnly [("a", "x")]) MemStore.empty))
      = [copiedMessage (length l1) (length l2) (length l3)].
Proof.
  apply (completed_run anyInput (credentialsOnly [("a", "x")]) MemStore.empty).
  vm_compute. reflexivity.
Defined.

Lemma writes_follow_reads_witness :
  exists j,
    4 = S j /\
    calls (snd (run anyInput (credentialsOnly [("a", "x")]) MemStore.empty)) !! j
      = Some (Source, OpGet Credential "a") /\
    Get Credential "a" (credentialsOnly [("a", "x")]) = Ok "x".
Proof.
  apply (writes_follow_reads anyInput (credentialsOnly [("a", "x")])
           MemStore.empty 4 Credential "a" "x").
  vm_compute. reflexivity.
Defined.

Lemma stops_at_first_failure_witness :
  stdout (snd (run anyInput unreadableSecond MemStore.empty)) = [] /\
  exists c,
    last (calls (snd (run anyInput unreadableSecond MemStore.empty))) = Some c /\
    failedWith unreadableSecond
      (dst (snd (run anyInput unreadableSecond MemStore.empty)))
      (Failure "read failed") c.
Proof.
  apply (stops_at_first_failure anyInput unreadableSecond MemStore.empty
           (Failure "read failed")).
  vm_compute. reflexivity.
Defined.

End CopyProps.

(** ** The copy command between stores in memory *)

Module MemStoreProps.

Import Copy Design Trace Plan Loops Faults CopyFacts CopyShape MemStore.

Lemma lookup_update_eq key v l : lookup key (update key v l) = Some v.
Proof.
  induction l as [|[k v'] l IH]; simpl.
  - rewrite String.eqb_refl. reflexivity.
  - destruct (String.eqb k key) eqn:E; simpl; rewrite E; [reflexivity|exact IH].
Qed.

Lemma lookup_update_ne key key' v l :
  key <> key' -> lookup key' (update key v l) = lookup key' l.
Proof.
  intros Hne. induction l as [|[k v'] l IH]; simpl.
  - apply String.eqb_neq in Hne. rewrite Hne. reflexivity.
  - destruct (String.eqb k key) eqn:E; simpl.
    + apply String.eqb_eq in E. subst k.
      apply String.eqb_neq in Hne. rewrite Hne. reflexivity.
    + rewrite IH. reflexivity.
Qed.

Lemma update_same key v l : lookup key l = Some v -> update key v l = l.
Proof.
  induction l as [|[k v'] l IH]; simpl; [discriminate|].
  destruct (String.eqb k key) eqn:E.
  - intros [= ->]. reflexivity.
  - intros Hl. rewrite (IH Hl). reflexivity.
Qed.

Lemma lookup_keys key l : key ∈ map fst l -> is_Some (lookup key l).
Proof.
  induction l as [|[k v] l IH]; simpl; intros Hin.
  - inversion Hin.
  - destruct (String.eqb k key) eqn:E; [eauto|].
    apply String.eqb_neq in E.
    apply elem_of_cons in Hin as [->|Hin]; [congruence|auto].
Qed.

Lemma lookup_not_keys key l : key ∉ map fst l -> lookup key l = None.
Proof.
  induction l as [|[k v] l IH]; simpl; intros Hnot; [reflexivity|].
  destruct (String.eqb k key) eqn:E.
  - apply String.eqb_eq in E. subst k. exfalso. apply Hnot. left.
  - apply IH. intros Hin. apply Hnot. right. exact Hin.
Qed.

Lemma wasRead_lookup (source : MemStore.t) (t : transferred) :
  wasRead source t ->
  lookup (snd (fst t)) (items source (fst (fst t))) = Some (snd t).
Proof.
  unfold wasRead. simpl. unfold storeGet.
  destruct (getFault source _ _); [discriminate|].
  destruct (lookup _ _); [|discriminate]. intros [= ->]. reflexivity.
Qed.

Lemma storeSet_faultless ns key v (d : MemStore.t) :
  faultless d ->
  snd (storeSet ns key v d) = None /\
  faultless (fst (storeSet ns key v d)) /\
  forall ns',
    items (fst (storeSet ns key v d)) ns'
    = if decide (ns' = ns) then update key v (items d ns') else items d ns'.
Proof.
  intros (Hk & Hg & Hs). unfold storeSet. rewrite Hs. simpl.
  repeat split; auto.
Qed.

Lemma written_cons (d : MemStore.t) (t : transferred) (done : list transferred) :
  written d (t :: done)
  = written (fst (storeSet (fst (fst t)) (snd (fst t)) (snd t) d)) done.
Proof. reflexivity. Qed.

Lemma written_faultless (done : list transferred) : forall d : MemStore.t,
  faultless d -> faultless (written d done).
Proof.
  induction done as [|t done IH]; intros d Hd; [exact Hd|].
  rewrite written_cons. apply IH.
  exact (proj1 (proj2 (storeSet_faultless _ _ _ d Hd))).
Qed.

(** What the destination holds after the writes of transfers read from the
    source. *)
Lemma written_lookup (source : MemStore.t) (done : list transferred) :
  Forall (wasRead source) done ->
  forall (d : MemStore.t) ns key,
    faultless d ->
    lookup key (items (written d done) ns)
    = if decide ((ns, key) ∈ map target done)
      then lookup key (items source ns)
      else lookup key (items d ns).
Proof.
  induction 1 as [|t done Ht Hdone IH]; intros d ns key Hd.
  - reflexivity.
  - rewrite written_cons.
    destruct (storeSet_faultless (fst (fst t)) (snd (fst t)) (snd t) d Hd)
      as (_ & Hd' & Hitems).
    rewrite (IH _ ns key Hd'). simpl map.
    destruct (decide ((ns, key) ∈ map target done)) as [Hin|Hnot].
    + rewrite decide_True by (right; exact Hin). reflexivity.
    + rewrite Hitems.
      destruct (decide ((ns, key) = target t)) as [E|Hne].
      * destruct t as [[n k] v]. simpl in E. injection E as -> ->.
        cbn [fst snd target map] in *.
        destruct (decide ((n, k) ∈ (n, k) :: map target done)) as [_|Hc];
          [|exfalso; apply Hc; left].
        destruct (decide (n = n)) as [_|Hc]; [|congruence].
        rewrite lookup_update_eq. symmetry.
        exact (wasRead_lookup source (n, k, v) Ht).
      * destruct (decide ((ns, key) ∈ target t :: map target done)) as [Hin|_].
        { apply elem_of_cons in Hin as [E|Hin]; contradiction. }
        destruct (decide (ns = fst (fst t))) as [->|Hns]; [|reflexivity].
        apply lookup_update_ne. intros E. apply Hne.
        destruct t as [[n k] v]. simpl in E |- *. rewrite E. reflexivity.
Qed.

(** Writes of what the destination already holds change nothing. *)
Lemma written_same (done : list transferred) : forall d : MemStore.t,
  faultless d ->
  Forall (fun t => lookup (snd (fst t)) (items d (fst (fst t))) = Some (snd t))
    done ->
  forall ns, items (written d done) ns = items d ns.
Proof.
  induction done as [|t done IH]; intros d Hd Hall ns; [reflexivity|].
  apply Forall_cons in Hall as [Ht Hall].
  rewrite written_cons.
  destruct (storeSet_faultless (fst (fst t)) (snd (fst t)) (snd t) d Hd)
    as (_ & Hd' & Hitems).
  assert (Hsame : forall ns',
             items (fst (storeSet (fst (fst t)) (snd (fst t)) (snd t) d)) ns'
             = items d ns').
  { intros ns'. rewrite Hitems.
    destruct (decide (ns' = fst (fst t))) as [->|_]; [|reflexivity].
    apply update_same. exact Ht. }
  rewrite IH; [apply Hsame|exact Hd'|].
  eapply Forall_impl; [exact Hall|].
  intros t' Ht'. simpl. rewrite Hsame. exact Ht'.
Qed.

Lemma plan_elem ns key l1 l2 l3 :
  (ns, key) ∈ plan l1 l2 l3 <->
  key ∈ match ns with Credential => l1 | OIDCToken => l2 | Session => l3 end.
Proof.
  unfold plan. rewrite !elem_of_app, !list_elem_of_fmap. split.
  - intros [(k & E & Hk)|[(k & E & Hk)|(k & E & Hk)]];
      injection E as -> ->; exact Hk.
  - destruct ns; intros Hk; [left|right; left|right; right]; eauto.
Qed.

Lemma Keys_faultless (source : MemStore.t) ns :
  faultless source -> Keys ns source = Ok (map fst (items source ns)).
Proof.
  intros (Hk & _ & _). simpl. unfold storeKeys. rewrite Hk. reflexivity.
Qed.

(** A run between two stores in which nothing fails of itself. *)
Lemma faultless_run input (source destination : MemStore.t) :
  faultless source -> faultless destination ->
  exists done,
    fst (run input source destination) = Ok tt /\
    map target done
    = plan (map fst (items source Credential)) (map fst (items source OIDCToken))
        (map fst (items source Session)) /\
    Forall (wasRead source) done /\
    dst (snd (run input source destination)) = written destination done /\
    src (snd (run input source destination)) = source /\
    stdout (snd (run input source destination))
    = [copiedMessage (length (items source Credential))
         (length (items source OIDCToken)) (length (items source Session))].
Proof.
  intros Hs Hd.
  destruct (run_shape input source destination _ _ _
              (Keys_faultless source Credential Hs)
              (Keys_faultless source OIDCToken Hs)
              (Keys_faultless source Session Hs))
    as (done & tail & Hsrc & Hc & Hdst & Hr & He & Ho).
  exists done.
  destruct He as [Hdone|ns key e rest E Hg|before ns key v e rest E1 E2 Hw].
  - rewrite !length_map in Ho. repeat split; assumption.
  - exfalso.
    assert (Hin : (ns, key) ∈ plan (map fst (items source Credential))
                    (map fst (items source OIDCToken))
                    (map fst (items source Session))).
    { rewrite E. apply elem_of_app. right. left. }
    apply plan_elem in Hin.
    assert (Hk : key ∈ map fst (items source ns)) by (destruct ns; exact Hin).
    apply lookup_keys in Hk as [v Hv].
    simpl in Hg. unfold storeGet in Hg.
    rewrite (proj1 (proj2 Hs)), Hv in Hg. discriminate.
  - exfalso.
    pose proof (written_faultless before destination Hd) as Hb.
    simpl in Hw.
    rewrite (proj1 (storeSet_faultless ns key v _ Hb)) in Hw. discriminate.
Qed.

Lemma source_or_destination (source : MemStore.t) ns key l1 l2 l3 :
  l1 = map fst (items source Credential) ->
  l2 = map fst (items source OIDCToken) ->
  l3 = map fst (items source Session) ->
  forall other : option string,
    (if decide ((ns, key) ∈ plan l1 l2 l3)
     then lookup key (items source ns) else other)
    = match lookup key (items source ns) with
      | Some v => Some v
      | None => other
      end.
Proof.
  intros -> -> -> other.
  destruct (decide ((ns, key) ∈
              plan (map fst (items source Credential))
                (map fst (items source OIDCToken))
                (map fst (items source Session)))) as [Hin|Hnot].
  - apply plan_elem in Hin.
    assert (Hk : key ∈ map fst (items source ns)) by (destruct ns; exact Hin).
    apply lookup_keys in Hk as [v ->]. reflexivity.
  - rewrite lookup_not_keys; [reflexivity|].
    intros Hk. apply Hnot, plan_elem. destruct ns; exact Hk.
Qed.

(** X18: between two stores in which no operation fails of itself, the command
    succeeds, and afterwards the destination holds, in every namespace and
    under every key, what the source holds under that key, and what it held
    itself under the keys that the source does not have; the source is
    unchanged and the counts printed are the numbers of entries of the
    source. *)
Theorem copy_overlays_source
    (input : CopyCommandInput) (source destination : MemStore.t) :
  faultless source -> faultless destination ->
  fst (run input source destination) = Ok tt /\
  (forall ns key,
     lookup key (items (dst (snd (run input source destination))) ns)
     = match lookup key (items source ns) with
       | Some v => Some v
       | None => lookup key (items destination ns)
       end) /\
  faultless (dst (snd (run input source destination))) /\
  src (snd (run input source destination)) = source /\
  stdout (snd (run input source destination))
  = [copiedMessage (length (items source Credential))
       (length (items source OIDCToken)) (length (items source Session))].
Proof.
  intros Hs Hd.
  destruct (faultless_run input source destination Hs Hd)
    as (done & Hok & Hdone & Hr & Hdst & Hsrc & Hout).
  split; [exact Hok|]. split; [|split; [|split; assumption]].
  - intros ns key. rewrite Hdst, (written_lookup source done Hr _ ns key Hd), Hdone.
    apply source_or_destination; reflexivity.
  - rewrite Hdst. apply written_faultless. exact Hd.
Qed.

(** X19: copying again changes nothing: after a copy between two stores in which
    no operation fails of itself, a second copy from the same source
    succeeds and leaves every namespace of the destination exactly as the
    first copy left it, entry for entry. *)
Theorem copy_twice
    (input input' : CopyCommandInput) (source destination : MemStore.t) :
  faultless source -> faultless destination ->
  let once := dst (snd (run input source destination)) in
  fst (run input' source once) = Ok tt /\
  forall ns, items (dst (snd (run input' source once))) ns = items once ns.
Proof.
  intros Hs Hd once.
  destruct (faultless_run input source destination Hs Hd)
    as (done & _ & Hdone & Hr & Hdst & _ & _).
  assert (Honce : faultless once).
  { unfold once. rewrite Hdst. apply written_faultless. exact Hd. }
  destruct (faultless_run input' source once Hs Honce)
    as (done' & Hok' & Hdone' & Hr' & Hdst' & _ & _).
  split; [exact Hok'|]. intros ns. rewrite Hdst'.
  apply written_same; [exact Honce|].
  apply Forall_forall. intros t Ht.
  pose proof (proj1 (Forall_forall _ _) Hr' t Ht) as Hread.
  apply wasRead_lookup in Hread.
  unfold once. rewrite Hdst.
  rewrite (written_lookup source done Hr _ _ _ Hd), Hdone, <- Hdone'.
  rewrite decide_True; [exact Hread|].
  apply list_elem_of_fmap. exists t. split; [|exact Ht].
  destruct t as [[n k] v]. reflexivity.
Qed.

Import Scenario.

Lemma faultless_healthy content : faultless (healthy content).
Proof. repeat split. Qed.

Lemma copy_overlays_source_witness :
  let source := credentialsOnly [("a", "x")] in
  let destination := credentialsOnly [("a", "old"); ("b", "y")] in
  fst (run anyInput source destination) = Ok tt /\
  (forall ns key,
     lookup key (items (dst (snd (run anyInput source destination))) ns)
     = match lookup key (items source ns) with
       | Some v => Some v
       | None => lookup key (items destination ns)
       end) /\
  faultless (dst (snd (run anyInput source destination))) /\
  src (snd (run anyInput source destination)) = source /\
  stdout (snd (run anyInput source destination))
  = [copiedMessage (length (items source Credential))
       (length (items source OIDCToken)) (length (items source Session))].
Proof.
  apply (copy_overlays_source anyInput (credentialsOnly [("a", "x")])
           (credentialsOnly [("a", "old"); ("b", "y")]));
    repeat split.
Defined.

Lemma copy_twice_witness :
  let source := credentialsOnly [("a", "x")] in
  let once :=
    dst (snd (run anyInput source (credentialsOnly [("a", "old"); ("b", "y")]))) in
  fst (run anyInput source once) = Ok tt /\
  forall ns, items (dst (snd (run anyInput source once))) ns = items once ns.
Proof.
  apply (copy_twice anyInput anyInput (credentialsOnly [("a", "x")])
           (credentialsOnly [("a", "old"); ("b", "y")]));
    repeat split.
Defined.

End MemStoreProps.
